(** * The context retrieval pipeline of [rag_system.py]

    A shallow embedding of [RAGSystem]: the LRU query cache
    ([collections.OrderedDict]), the hybrid retriever with its local cosine
    rerank, the context formatter and the PDF ingestion loop.  The embedding
    model, the ChromaDB collection and the PDF reader are external services:
    they are section variables acting on an abstract world, and every call to
    them is recorded in an event log.  The calls to [system_logger] only
    write log records and are left out. *)

From Stdlib Require Import List String Ascii ZArith Lia Bool Arith.
From Stdlib Require Import Floats Permutation DecimalString.
From Stdlib Require DecimalNat Finite.
Import ListNotations.

Set Implicit Arguments.

(** ** Python results: a value or a raised exception *)

(** The exception classes the modelled code can meet.  In the retrieval they
    are taken to derive from [Exception], as the errors of the Python runtime
    do, so that the handler [except Exception] of [retrieve_relevant_chunks]
    catches each one.  The constructor, whose two handlers differ on it,
    takes the class of an error as a parameter. *)
Inductive exn : Type :=
| ProviderError
| IndexUnavailable
| PdfError
| FileNotFoundError
| TypeError
| IndexError
| KeyError
| AttributeError
| ValueError
| ZeroDivisionError.

Inductive result (A : Type) : Type :=
| Ok (a : A)
| Raise (e : exn).

Arguments Ok {A} a.
Arguments Raise {A} e.

Definition rbind {A B : Type} (r : result A) (k : A -> result B) : result B :=
  match r with
  | Ok a => k a
  | Raise e => Raise e
  end.

(** [l[i]] for a non-negative index: [IndexError] out of range. *)
Definition py_index {A : Type} (l : list A) (i : nat) : result A :=
  match nth_error l i with
  | Some a => Ok a
  | None => Raise IndexError
  end.

(** [x[i]] where [x] may be [None]: subscripting [None] is a [TypeError]. *)
Definition py_subscript {A : Type} (x : option (list A)) (i : nat) : result A :=
  match x with
  | Some l => py_index l i
  | None => Raise TypeError
  end.

(** Truth value of an optional list: [None] and [[]] are falsy. *)
Definition truthy {A : Type} (x : option (list A)) : bool :=
  match x with
  | Some (_ :: _) => true
  | _ => false
  end.

Fixpoint mapM {A B : Type} (f : A -> result B) (l : list A) : result (list B) :=
  match l with
  | [] => Ok []
  | a :: t => rbind (f a) (fun b => rbind (mapM f t) (fun bs => Ok (b :: bs)))
  end.

(** [enumerate(l, start)] *)
Fixpoint enumerate {A : Type} (start : nat) (l : list A) : list (nat * A) :=
  match l with
  | [] => []
  | a :: t => (start, a) :: enumerate (S start) t
  end.

(** ** Strings *)

Open Scope string_scope.
Open Scope list_scope.

(** String concatenation ([+] on [str]); [++] stays list append. *)
Infix "^^" := String.append (at level 60, right associativity).

Definition nl : string := String (ascii_of_nat 10) EmptyString.

(** [str(i)] for a non-negative integer. *)
Definition str_of_nat (n : nat) : string :=
  NilZero.string_of_uint (Nat.to_uint n).

(** [sep.join(l)] *)
Fixpoint join (sep : string) (l : list string) : string :=
  match l with
  | [] => EmptyString
  | [s] => s
  | s :: t => s ^^ sep ^^ join sep t
  end.


(** [posixpath.basename]: what follows the last slash. *)
Fixpoint basename_aux (acc s : string) : string :=
  match s with
  | EmptyString => acc
  | String c s' =>
      if Ascii.eqb c "/"%char then basename_aux s' s' else basename_aux acc s'
  end.

Definition basename (path : string) : string := basename_aux path path.

(** ** [collections.OrderedDict] with string keys

    The entries in insertion order, oldest first; keys are unique. *)

Definition ordered_dict (V : Type) : Type := list (string * V).

Fixpoint od_get {V : Type} (k : string) (d : ordered_dict V) : option V :=
  match d with
  | [] => None
  | (k', v) :: t => if String.eqb k k' then Some v else od_get k t
  end.

Fixpoint od_remove {V : Type} (k : string) (d : ordered_dict V) : ordered_dict V :=
  match d with
  | [] => []
  | (k', v) :: t => if String.eqb k k' then t else (k', v) :: od_remove k t
  end.

(** [d.move_to_end(k)]: [KeyError] when [k] is not a key. *)
Definition od_move_to_end {V : Type} (k : string) (d : ordered_dict V)
  : result (ordered_dict V) :=
  match od_get k d with
  | Some v => Ok (od_remove k d ++ [(k, v)])
  | None => Raise KeyError
  end.

(** [d[k] = v]: an existing key keeps its place, a new key goes last. *)
Fixpoint od_setitem {V : Type} (k : string) (v : V) (d : ordered_dict V)
  : ordered_dict V :=
  match d with
  | [] => [(k, v)]
  | (k', v') :: t =>
      if String.eqb k k' then (k', v) :: t else (k', v') :: od_setitem k v t
  end.

(** [d.popitem(last=False)]: removes the first entry; [KeyError] when empty. *)
Definition od_popitem_first {V : Type} (d : ordered_dict V)
  : result ((string * V) * ordered_dict V) :=
  match d with
  | [] => Raise KeyError
  | kv :: t => Ok (kv, t)
  end.

Definition od_keys {V : Type} (d : ordered_dict V) : list string := map fst d.

(** ** Python floats

    A Python [float] is an IEEE 754 binary64 number: the kernel's primitive
    floats, whose operations round as the hardware does. *)

Definition vec : Type := list float.

(** [sum(xs)] over floats: left to right from the integer [0], which the
    first addition turns into [0.0].  (CPython 3.12 and later carry a
    compensation term along, which can change the last bit of an inexact sum;
    the sums evaluated on concrete vectors below are exact or infinite, and
    come out the same either way.) *)
Definition py_sum (xs : list float) : float :=
  fold_left PrimFloat.add xs 0%float.

(** [math.sqrt]: [ValueError] on a negative argument. *)
Definition math_sqrt (x : float) : result float :=
  if PrimFloat.ltb x 0%float then Raise ValueError else Ok (PrimFloat.sqrt x).

(** [x / y] on floats: [ZeroDivisionError] when [y == 0]. *)
Definition py_div (x y : float) : result float :=
  if PrimFloat.eqb y 0%float then Raise ZeroDivisionError
  else Ok (PrimFloat.div x y).

(** [sum(x*y for x, y in zip(a, b))] *)
Definition dot (a b : vec) : float :=
  py_sum (map (fun xy => PrimFloat.mul (fst xy) (snd xy)) (combine a b)).

(** [math.sqrt(sum(x*x for x in a))] *)
Definition norm (a : vec) : result float :=
  math_sqrt (py_sum (map (fun x => PrimFloat.mul x x) a)).

(** The local function [cosine] of [retrieve_relevant_chunks]. *)
Definition cosine (a b : vec) : result float :=
  let d := dot a b in
  rbind (norm a) (fun na =>
  rbind (norm b) (fun nb =>
  if PrimFloat.eqb na 0%float || PrimFloat.eqb nb 0%float then Ok 0%float
  else py_div d (PrimFloat.mul na nb))).

(** [x != x]: the test that singles out NaN. *)
Definition is_nan (x : float) : bool := negb (PrimFloat.eqb x x).

(** ** Retrieved chunks

    The dictionaries [retrieve_relevant_chunks] builds.  An optional field is
    [None] when the key is absent; for [c_distance], when its value is
    [None]. *)

Record chunk : Type := mk_chunk {
  c_text : string;
  c_source : option string;
  c_chunk_id : option string;
  c_distance : option float;
  c_score : option float
}.

(** [d.get(key, default)] *)
Definition get_default {A : Type} (x : option A) (default : A) : A :=
  match x with
  | Some a => a
  | None => default
  end.

(** The metadata dictionary the index keeps with a stored item. *)
Record metadata : Type := mk_metadata {
  md_source : option string;
  md_chunk_id : option string
}.

(** What [collection.query] returns; a field that is [None] here is [None]
    (or, for [distances], possibly absent) in the dictionary. *)
Record query_result : Type := mk_query_result {
  documents : option (list (list string));
  metadatas : option (list (list (option metadata)));
  distances : option (list (list float))
}.

(** [c.get("score", 0.0)], the sort key. *)
Definition sort_key (c : chunk) : float := get_default (c_score c) 0%float.

(** [l.sort(key=key, reverse=True)] on keys none of which is a NaN.
    CPython's sort is stable, also when reversed, so an element moves in
    front of exactly those with a strictly smaller key.  With a NaN among
    the keys [<] orders nothing against it, and what CPython's merge sort
    leaves is a permutation that depends on its run detection: in that case
    the properties of this file use [sort_desc] for the elements it returns,
    never for their order. *)
Fixpoint insert_desc {A : Type} (key : A -> float) (x : A) (l : list A) : list A :=
  match l with
  | [] => [x]
  | y :: t =>
      if PrimFloat.ltb (key x) (key y) then y :: insert_desc key x t
      else x :: y :: t
  end.

Definition sort_desc {A : Type} (key : A -> float) (l : list A) : list A :=
  fold_right (insert_desc key) [] l.

(** ** [format_context_for_llm] *)

Definition no_context : string :=
  "No relevant information found in reference materials.".

Definition format_entry (ic : nat * chunk) : string :=
  "[Source " ^^ str_of_nat (fst ic) ^^ ": "
    ^^ get_default (c_source (snd ic)) "Nephrology Reference" ^^ "]" ^^ nl
    ^^ c_text (snd ic) ^^ nl ^^ nl.

Definition format_context_for_llm (chunks : list chunk) : string :=
  match chunks with
  | [] => no_context
  | _ =>
      fold_left (fun context ic => context ^^ format_entry ic)
        (enumerate 1 chunks)
        ("Reference Material Citations:" ^^ nl ^^ nl)
  end.

(** ** Batches

    [[l[s : min(s + n, len(l))] for s in range(0, len(l), n)]], the slices
    both batch loops walk through. *)
Fixpoint batches_fuel {A : Type} (fuel n : nat) (l : list A) : list (list A) :=
  match fuel, l with
  | _, [] => []
  | O, _ => []
  | S fuel', _ => firstn n l :: batches_fuel fuel' n (skipn n l)
  end.

Definition batches {A : Type} (n : nat) (l : list A) : list (list A) :=
  batches_fuel (List.length l) n l.

(** ** The external services and the state of a [RAGSystem] *)

(** One stored item of a [collection.add] call. *)
Record item : Type := mk_item {
  it_id : string;
  it_text : string;
  it_meta : metadata
}.

(** The calls made to the services, in order. *)
Inductive event : Type :=
| EvEncode (texts : list string)
| EvQuery (embedding : vec) (n_results : Z)
| EvCount
| EvAdd (embeddings : list vec) (items : list item)
| EvPathExists
| EvPdfRead.

(** What a call of [process_pdf] hands back: it has no [return] with a value. *)
Inductive pyval : Type :=
| PyNone
| PyInt (z : Z).

(** A chunk dictionary of [chunk_text]. *)
Record doc_chunk : Type := mk_doc_chunk {
  dc_text : string;
  dc_chunk_id : nat;
  dc_source : string
}.

(** [self._max_cache_size], assigned once, in [__init__]. *)
Definition max_cache_size : nat := 128.

Section Services.

(** The state of the embedding model, the collection and the file system. *)
Variable W : Type.

(** [self.embedding_model.encode(texts, ...)], as lists. *)
Variable encode : list string -> W -> result (list vec) * W.
(** [self.collection.query(query_embeddings=[e], n_results=n)] *)
Variable collection_query : vec -> Z -> W -> result query_result * W.
(** [self.collection.count()] *)
Variable collection_count : W -> result Z * W.
(** [self.collection.add(embeddings, documents, metadatas, ids)] *)
Variable collection_add : list vec -> list item -> W -> result unit * W.
(** [os.path.exists(self.pdf_path)] *)
Variable path_exists : W -> bool.
(** [page.extract_text()] of every page of the opened PDF. *)
Variable pdf_pages : W -> result (list (option string)) * W.
(** [self.text_splitter.split_text], the third-party splitter. *)
Variable split_text : string -> list string.
(** [self.pdf_path] *)
Variable pdf_path : string.

Record rag : Type := mk_rag {
  query_cache : ordered_dict string;
  world : W;
  calls : list event
}.

(** Computations over a [RAGSystem]: a raised exception keeps the state
    reached so far. *)
Definition M (A : Type) : Type := rag -> result A * rag.

Definition ret {A : Type} (a : A) : M A := fun st => (Ok a, st).

Definition raise {A : Type} (e : exn) : M A := fun st => (Raise e, st).

Definition bind {A B : Type} (m : M A) (k : A -> M B) : M B :=
  fun st =>
    match m st with
    | (Ok a, st') => k a st'
    | (Raise e, st') => (Raise e, st')
    end.

Definition lift {A : Type} (r : result A) : M A := fun st => (r, st).

(** [try: m except Exception: return fallback] *)
Definition try_except {A : Type} (m : M A) (fallback : A) : M A :=
  fun st =>
    match m st with
    | (Ok a, st') => (Ok a, st')
    | (Raise _, st') => (Ok fallback, st')
    end.

(** A call to a service: the world moves on and the call is logged. *)
Definition service {A : Type} (ev : event) (f : W -> result A * W) : M A :=
  fun st =>
    let (r, w') := f (world st) in
    (r, mk_rag (query_cache st) w' (calls st ++ [ev])).

Definition get_cache : M (ordered_dict string) :=
  fun st => (Ok (query_cache st), st).

Definition set_cache (d : ordered_dict string) : M unit :=
  fun st => (Ok tt, mk_rag d (world st) (calls st)).

Local Notation "x <- m ;; k" := (bind m (fun x => k))
  (at level 61, m at next level, right associativity).

Definition call_encode (texts : list string) : M (list vec) :=
  service (EvEncode texts) (encode texts).

Definition call_query (e : vec) (n : Z) : M query_result :=
  service (EvQuery e n) (collection_query e n).

(** *** [retrieve_relevant_chunks] *)

(** The body of the loop over [results['documents'][0]]. *)
Definition build_chunk (r : query_result) (idoc : nat * string) : result chunk :=
  let i := fst idoc in
  rbind (py_subscript (metadatas r) 0) (fun m0 =>
  rbind (py_index m0 i) (fun md =>
  match md with
  | None => Raise AttributeError
  | Some md =>
      rbind
        (if truthy (distances r)
         then rbind (py_subscript (distances r) 0) (fun d0 =>
              rbind (py_index d0 i) (fun d => Ok (Some d)))
         else Ok None)
        (fun dist =>
           Ok (mk_chunk (snd idoc)
                 (Some (get_default (md_source md) "Unknown"))
                 (Some (get_default (md_chunk_id md) "Unknown"))
                 dist None))
  end)).

Definition build_chunks (r : query_result) : result (list chunk) :=
  match documents r with
  | Some (docs :: _) =>
      if Nat.ltb 0 (List.length docs)
      then mapM (build_chunk r) (enumerate 0 docs)
      else Ok []
  | _ => Ok []
  end.

(** Encoding in sub-batches, the results appended in order. *)
Fixpoint encode_batches (bs : list (list string)) : M (list vec) :=
  match bs with
  | [] => ret []
  | sub :: rest =>
      sub_emb <- call_encode sub ;;
      more <- encode_batches rest ;;
      ret (sub_emb ++ more)
  end.

Definition set_score (c : chunk) (sc : float) : chunk :=
  mk_chunk (c_text c) (c_source c) (c_chunk_id c) (c_distance c) (Some sc).

(** The rerank: re-embed the texts, score each against the query, sort. *)
Definition rerank (query_embedding : vec) (retrieved : list chunk)
  : M (list chunk) :=
  match retrieved with
  | [] => ret []
  | _ =>
      chunk_embeds <- encode_batches (batches 64 (map c_text retrieved)) ;;
      scores <- lift (mapM (fun i =>
                   rbind (py_index chunk_embeds i) (fun e =>
                   cosine e query_embedding))
                 (seq 0 (List.length retrieved))) ;;
      ret (sort_desc sort_key
             (map (fun cs => set_score (fst cs) (snd cs))
                (combine retrieved scores)))
  end.

(** What stands inside the [try]. *)
Definition retrieve_body (query : string) (n_results : Z) : M (list chunk) :=
  embs <- call_encode [query] ;;
  query_embedding <- lift (py_index embs 0) ;;
  results <- call_query query_embedding n_results ;;
  retrieved <- lift (build_chunks results) ;;
  rerank query_embedding retrieved.

Definition retrieve_relevant_chunks (query : string) (n_results : Z)
  : M (list chunk) :=
  try_except (retrieve_body query n_results) [].

(** *** [get_relevant_context] *)

Definition get_relevant_context (query : string) (n_results : Z) : M string :=
  cache <- get_cache ;;
  match od_get query cache with
  | Some cached =>
      moved <- lift (od_move_to_end query cache) ;;
      _ <- set_cache moved ;;
      ret cached
  | None =>
      chunks <- retrieve_relevant_chunks query n_results ;;
      let formatted := format_context_for_llm chunks in
      cache <- get_cache ;;
      let cache := od_setitem query formatted cache in
      _ <- set_cache cache ;;
      _ <- (if Nat.ltb max_cache_size (List.length cache)
            then popped <- lift (od_popitem_first cache) ;;
                 set_cache (snd popped)
            else ret tt) ;;
      ret formatted
  end.

(** *** Ingestion *)

(** The pages with text, each under its header; the page number counts
    every page. *)
Definition page_texts (pages : list (option string)) : list string :=
  flat_map (fun np =>
    match snd np with
    | Some (String c t) =>
        ["--- Page " ^^ str_of_nat (fst np) ^^ " ---" ^^ nl ^^ String c t]
    | _ => []
    end) (enumerate 1 pages).

Definition extract_text_from_pdf : M string :=
  found <- service EvPathExists (fun w => (Ok (path_exists w), w)) ;;
  if negb found then raise FileNotFoundError
  else
    pages <- service EvPdfRead pdf_pages ;;
    ret (join (nl ^^ nl) (page_texts pages)).

Definition chunk_text (text : string) : list doc_chunk :=
  map (fun ic => mk_doc_chunk (snd ic) (fst ic) (basename pdf_path))
    (enumerate 0 (split_text text)).

Definition item_of_chunk (c : doc_chunk) : item :=
  mk_item ("chunk_" ^^ str_of_nat (dc_chunk_id c)) (dc_text c)
    (mk_metadata (Some (dc_source c)) (Some (str_of_nat (dc_chunk_id c)))).

(** One round of the outer loop: embed the batch 64 texts at a time, then
    add it to the collection in one call. *)
Definition add_batch (batch : list item) : M unit :=
  batch_embeddings <- encode_batches (batches 64 (map it_text batch)) ;;
  service (EvAdd batch_embeddings batch) (collection_add batch_embeddings batch).

Fixpoint add_batches (bs : list (list item)) : M unit :=
  match bs with
  | [] => ret tt
  | b :: rest => _ <- add_batch b ;; add_batches rest
  end.

Definition process_pdf : M pyval :=
  count <- service EvCount collection_count ;;
  if Z.ltb 0 count then ret PyNone
  else
    full_text <- extract_text_from_pdf ;;
    let chunks := chunk_text full_text in
    _ <- add_batches (batches 1000 (map item_of_chunk chunks)) ;;
    ret PyNone.

(** A sequence of [get_relevant_context] calls; the state lives on whatever
    a call returns. *)
Fixpoint run_queries (qs : list (string * Z)) (st : rag) : rag :=
  match qs with
  | [] => st
  | (q, n) :: rest => run_queries rest (snd (get_relevant_context q n st))
  end.

End Services.

Arguments mk_rag {W} _ _ _.
Arguments query_cache {W} _.
Arguments world {W} _.
Arguments calls {W} _.

(** ** Construction: [__init__] and [_initialize_collection] *)

(** The keyword arguments [__init__] passes to
    [RecursiveCharacterTextSplitter]. *)
Definition chunk_size : nat := 1000.


Section Construction.

Variable W : Type.
Variable encode : list string -> W -> result (list vec) * W.
Variable collection_count : W -> result Z * W.
Variable collection_add : list vec -> list item -> W -> result unit * W.
Variable path_exists : W -> bool.
Variable pdf_pages : W -> result (list (option string)) * W.
Variable split_text : string -> list string.
Variable pdf_path : string.
(** [self.client.get_collection(name=self.collection_name)] *)
Variable get_collection : W -> result unit * W.
(** [self.client.create_collection(name=..., metadata=...)] *)
Variable create_collection : W -> result unit * W.
(** [isinstance(e, Exception)].  The two handlers of the constructor differ
    on it: [except Exception] catches the errors it holds of, the bare
    [except:] every one.  What a library raises need not derive from
    [Exception] (chromadb's [PanicException] and an interrupt from the
    keyboard do not), so the class of an error is left open here. *)
Variable is_exception : exn -> bool.

Local Notation "x <- m ;; k" := (bind m (fun x => k))
  (at level 61, m at next level, right associativity).

(** A call to the client: the world moves on.  The event log keeps the
    calls to the embedding model, the collection and the PDF only. *)
Definition client_call {A : Type} (f : W -> result A * W) : M W A :=
  fun st =>
    let (r, w') := f (world st) in
    (r, mk_rag (query_cache st) w' (calls st)).

(** [if os.path.exists(self.pdf_path): self.process_pdf()] *)
Definition process_pdf_if_present : M W unit :=
  found <- service EvPathExists (fun w => (Ok (path_exists w), w)) ;;
  if (found : bool)
  then _ <- process_pdf encode collection_count collection_add path_exists
              pdf_pages split_text pdf_path ;;
       ret tt
  else ret tt.

(** [if self.collection.count() == 0 and os.path.exists(self.pdf_path):
    self.process_pdf()], the body of the inner [try]. *)
Definition populate_if_empty : M W unit :=
  count <- service EvCount collection_count ;;
  if Z.eqb count 0 then process_pdf_if_present else ret tt.

(** [try: m except Exception as e: (log)]: an error outside [Exception]
    passes through. *)
Definition try_except_exception (m : M W unit) : M W unit :=
  fun st =>
    match m st with
    | (Ok a, st') => (Ok a, st')
    | (Raise e, st') =>
        if is_exception e then (Ok tt, st') else (Raise e, st')
    end.

(** [try: m except: handler]: whatever is raised, the handler runs, from the
    state the failure left. *)
Definition try_bare (m handler : M W unit) : M W unit :=
  fun st =>
    match m st with
    | (Ok a, st') => (Ok a, st')
    | (Raise _, st') => handler st'
    end.

(** The outer [try] fetches the collection and, in the inner [try], ingests
    the PDF when the collection is empty.  The inner handler swallows the
    [Exception]s of that; the bare [except] catches whatever else leaves the
    outer [try], a failure to fetch the collection or an error the inner
    handler let pass, and then creates the collection and ingests the PDF
    with no handler around. *)
Definition _initialize_collection : M W unit :=
  try_bare
    (_ <- client_call get_collection ;;
     try_except_exception populate_if_empty)
    (_ <- client_call create_collection ;; process_pdf_if_present).

(** [__init__], from the creation of the cache on: the cache starts empty. *)
Definition __init__ (w : W) : result unit * rag W :=
  _initialize_collection (mk_rag [] w []).

End Construction.

(** ** The chunker of the specification *)

(** Modelled from the spec: the error of Sections 4.1 and 7 for a bad
    chunking configuration. *)
Inductive chunk_error : Type :=
| InvalidParameters.

(** Modelled from the spec: the splitter behind [self.text_splitter], an
    object of a third-party package whose code is not part of the repository.
    Section 4.1 asks for segments of at most [chunk_size] characters in reading
    order, consecutive ones sharing [overlap] characters: a window of
    [chunk_size] characters that advances by [chunk_size - overlap] until it
    reaches the end of the text. *)
Fixpoint segments_fuel {A : Type} (fuel chunk_size overlap : nat) (l : list A)
  : list (list A) :=
  match fuel with
  | O => []
  | S fuel' =>
      match l with
      | [] => []
      | _ =>
          if Nat.leb (List.length l) chunk_size then [l]
          else firstn chunk_size l
                 :: segments_fuel fuel' chunk_size overlap
                      (skipn (chunk_size - overlap) l)
      end
  end.

(** Modelled from the spec: the segments of a whole text; the fuel is its
    length, which the window, advancing by at least one character, never
    exhausts. *)
Definition segments {A : Type} (chunk_size overlap : nat) (l : list A)
  : list (list A) :=
  segments_fuel (List.length l) chunk_size overlap l.

(** Modelled from the spec: the splitter on strings. *)
Definition split_segments (chunk_size overlap : nat) (text : string) : list string :=
  map string_of_list_ascii
    (segments chunk_size overlap (list_ascii_of_string text)).

(** Modelled from the spec: the contract [chunk(text, chunk_size, overlap)] of
    Section 4.1, which fails with [InvalidParameters] when
    [overlap >= chunk_size]; the chunks are numbered as [chunk_text] numbers
    them. *)
Definition chunk_spec (source text : string) (chunk_size overlap : nat)
  : chunk_error + list doc_chunk :=
  if Nat.leb chunk_size overlap then inl InvalidParameters
  else inr (map (fun ic => mk_doc_chunk (snd ic) (fst ic) source)
              (enumerate 0 (split_segments chunk_size overlap text))).

(** The text of a segment past the [overlap] characters it repeats. *)
Definition fresh_part (overlap : nat) (s : string) : string :=
  string_of_list_ascii (skipn overlap (list_ascii_of_string s)).

(** The first segment whole, then the fresh part of every later one. *)
Definition reassemble (overlap : nat) (segs : list string) : string :=
  match segs with
  | [] => EmptyString
  | s :: rest => s ^^ String.concat EmptyString (map (fresh_part overlap) rest)
  end.

(** The last [n] characters of a string, all of it when it is shorter. *)
Definition str_tail (n : nat) (s : string) : string :=
  string_of_list_ascii
    (skipn (String.length s - n) (list_ascii_of_string s)).

Definition str_head (n : nat) (s : string) : string :=
  string_of_list_ascii (firstn n (list_ascii_of_string s)).

(** Every segment but the last hands its last [overlap] characters on as the
    first [overlap] characters of the next. *)
Fixpoint overlapping (overlap : nat) (segs : list string) : Prop :=
  match segs with
  | s1 :: ((s2 :: _) as rest) =>
      str_tail overlap s1 = str_head overlap s2 /\ overlapping overlap rest
  | _ => True
  end.

(** * Notions the properties are stated with *)

Unset Implicit Arguments.

(** ** Recency of use

    A history lists the queries asked so far, the latest first.  [mru] keeps
    each query once, at its latest use: the distinct queries from the most to
    the least recently used. *)
Fixpoint mru (hist : list string) : list string :=
  match hist with
  | [] => []
  | q :: h => q :: remove string_dec q (mru h)
  end.

(** A computation that leaves the query cache as it found it. *)
Definition keeps_cache {W A : Type} (m : M W A) : Prop :=
  forall st, query_cache (snd (m st)) = query_cache st.

(** The invariant: read from its most-recently-used end, the cache lists
    the [max_cache_size] most recently used distinct queries. *)
Definition recency_inv {W : Type} (hist : list string) (st : rag W) : Prop :=
  rev (od_keys (query_cache st)) = firstn max_cache_size (mru hist).

(** ** Floats *)

(** Not below zero: a NaN, a zero of either sign, or a positive number. *)
Definition sf_not_negative (f : spec_float) : Prop :=
  match f with
  | S754_infinity s | S754_finite s _ _ => s = false
  | _ => True
  end.

(** At least [2^-537], the square root of the smallest subnormal. *)
Definition sf_large (f : spec_float) : Prop :=
  match f with
  | S754_zero _ => False
  | S754_finite _ m e => (-537 <= Z.log2 (Z.pos m) + e)%Z
  | _ => True
  end.

Definition squares (a : vec) : list float :=
  map (fun x => PrimFloat.mul x x) a.

(** A vector all of whose entries compare equal to zero. *)
Definition zero_vector (a : vec) : Prop :=
  Forall (fun x => PrimFloat.eqb x 0 = true) a.

(** [score[i] >= score[i+1]] for every adjacent pair. *)
Definition descending (scores : list float) : Prop :=
  forall i x y,
    nth_error scores i = Some x -> nth_error scores (S i) = Some y ->
    PrimFloat.leb y x = true.

(** ** Candidates and scores *)

(** The approximate distance the index supplied for candidate [i], if any. *)
Definition dist_at (r : query_result) (i : nat) : option float :=
  match distances r with
  | Some (ds :: _) => nth_error ds i
  | _ => None
  end.

(** The chunk for candidate [i]: a metadata field that is missing shows as
    ["Unknown"]. *)
Definition candidate (r : query_result) (i : nat) (doc : string) (md : metadata)
  : chunk :=
  mk_chunk doc
    (Some (get_default (md_source md) "Unknown"))
    (Some (get_default (md_chunk_id md) "Unknown"))
    (dist_at r i) None.

(** The candidates with their scores, in the index's order. *)
Definition attach_scores (built : list chunk) (scores : list float) : list chunk :=
  map (fun cs => set_score (fst cs) (snd cs)) (combine built scores).

(** The scores of a rerank that returned: one per candidate, each the
    cosine of the candidate's re-embedded text against the query. *)
Definition scores_of (W : Type)
           (encode : list string -> W -> result (list vec) * W)
           (qe : vec) (built : list chunk) (st st' : rag W)
           (scores : list float) : Prop :=
  List.length scores = List.length built /\
  forall i s, nth_error scores i = Some s ->
    exists chunk_embeds e,
      encode_batches encode (batches 64 (map c_text built)) st
        = (Ok chunk_embeds, st') /\
      nth_error chunk_embeds i = Some e /\ cosine e qe = Ok s.

(** ** The citation block *)

(** The entries of the citation block, one after the other. *)
Definition entries (ics : list (nat * chunk)) : string :=
  String.concat EmptyString (map format_entry ics).


(** ** Segments *)

(** Adjacent segments share [overlap] elements. *)
Fixpoint overlapping_lists (A : Type) (overlap : nat) (segs : list (list A))
  : Prop :=
  match segs with
  | s1 :: ((s2 :: _) as rest) =>
      skipn (List.length s1 - overlap) s1 = firstn overlap s2
      /\ overlapping_lists A overlap rest
  | _ => True
  end.

(** ** Ingestion traces *)

(** The batches handed to [collection.add], in the order of the calls. *)
Definition added_items (evs : list event) : list (list item) :=
  flat_map (fun ev =>
    match ev with
    | EvAdd _ items => [items]
    | _ => []
    end) evs.

(** The calls one round of the ingestion loop makes when nothing raises:
    the texts are embedded 64 at a time, then the batch is added. *)
Definition batch_events (f : string -> vec) (batch : list item) : list event :=
  map EvEncode (batches 64 (map it_text batch))
    ++ [EvAdd (map f (map it_text batch)) batch].

(** An embedding model that is up and embeds each text on its own: a call
    returns one vector per text, whatever else it was asked before. *)
Definition embeds_with {W : Type}
           (encode : list string -> W -> result (list vec) * W)
           (f : string -> vec) : Prop :=
  forall texts w, exists w', encode texts w = (Ok (map f texts), w').

(** The value of [cosine], which never raises. *)
Definition cosine_float (a b : vec) : float :=
  let na := PrimFloat.sqrt (py_sum (squares a)) in
  let nb := PrimFloat.sqrt (py_sum (squares b)) in
  if PrimFloat.eqb na 0 || PrimFloat.eqb nb 0 then 0%float
  else PrimFloat.div (dot a b) (PrimFloat.mul na nb).

(** ** Retrieval traces *)

(** The calls one retrieval may make: the query is embedded; then, at most,
    the index is asked once, with the [n_results] of the caller, and after
    that only texts are embedded. *)
Definition retrieval_calls (q : string) (n : Z) (evs : list event) : Prop :=
  exists rest,
    evs = EvEncode [q] :: rest /\
    (rest = [] \/ exists qe bs, rest = EvQuery qe n :: map EvEncode bs).

(** An index answer without documents: [results['documents']] is [None] or
    empty, or its first list is empty. *)
Definition no_documents (r : query_result) : bool :=
  match documents r with
  | Some ((_ :: _) :: _) => false
  | _ => true
  end.

(** An index answer from which every candidate can be built: each document
    of the first list has a metadata dictionary and, when distances come
    with the answer, a distance. *)
Definition complete_answer (r : query_result) : bool :=
  match documents r with
  | Some ((d :: docs) :: _) =>
      match metadatas r with
      | Some (m0 :: _) =>
          forallb (fun i =>
                     match nth_error m0 i with
                     | Some (Some _) => true
                     | _ => false
                     end) (seq 0 (S (List.length docs)))
          && match distances r with
             | Some (ds :: _) => Nat.leb (S (List.length docs)) (List.length ds)
             | _ => true
             end
      | _ => false
      end
  | _ => true
  end.

(** A collection that takes whatever it is given. *)
Definition accepts_all {W : Type}
           (collection_add : list vec -> list item -> W -> result unit * W)
  : Prop :=
  forall embeddings items w,
    exists w', collection_add embeddings items w = (Ok tt, w').

(** The chunk with the cosine of its embedded text against the embedded
    query as its score. *)
Definition scored (f : string -> vec) (q : string) (c : chunk) : chunk :=
  set_score c (cosine_float (f (c_text c)) (f q)).

(** ** Small worlds to run the model on *)

(** An embedding model that places ["alpha"] and the query on the first axis
    and every other text on the second. *)
Definition demo_embed (t : string) : vec :=
  if String.eqb t "beta" then [0; 1]%float else [1; 0]%float.

Definition demo_encode (texts : list string) (w : unit)
  : result (list vec) * unit :=
  (Ok (map demo_embed texts), w).

(** An index that answers every query with ["beta"] ahead of ["alpha"];
    ["beta"] has no [source] and ["alpha"] no [chunk_id], and no distances
    come with the answer. *)
Definition demo_result : query_result :=
  mk_query_result
    (Some [["beta"; "alpha"]])
    (Some [[Some (mk_metadata None (Some "4"));
            Some (mk_metadata (Some "doc.pdf") None)]])
    None.

Definition demo_query (e : vec) (n : Z) (w : unit)
  : result query_result * unit :=
  (Ok demo_result, w).


(** An embedding model whose vectors are so long that their squares
    overflow. *)
Definition huge_encode (texts : list string) (w : unit)
  : result (list vec) * unit :=
  (Ok (map (fun _ => [0x1p+600%float]) texts), w).

Definition fresh_rag : rag unit := mk_rag [] tt [].

(** The queries ["0"], ["1"], ..., each asked once. *)
Definition numbered_queries (k : nat) : list (string * Z) :=
  map (fun i => (str_of_nat i, 5%Z)) (seq 0 k).

(** A collection that already holds three items. *)
Definition populated_count (w : unit) : result Z * unit := (Ok 3%Z, w).

Definition no_add (embeddings : list vec) (items : list item) (w : unit)
  : result unit * unit := (Ok tt, w).

Definition no_pages (w : unit) : result (list (option string)) * unit :=
  (Ok [], w).

(** A collection that is there and holds nothing. *)
Definition empty_count (w : unit) : result Z * unit := (Ok 0%Z, w).

(** A PDF of three pages, the second without text. *)
Definition three_pages : list (option string) :=
  [Some "Kidneys."; None; Some "Nephrons."].

Definition demo_pages (w : unit) : result (list (option string)) * unit :=
  (Ok three_pages, w).

(** A PDF that cannot be opened. *)
Definition unreadable_pdf (w : unit) : result (list (option string)) * unit :=
  (Raise PdfError, w).

(** A splitter that keeps the text in one piece. *)
Definition one_segment (text : string) : list string := [text].

(** An index that has nothing to offer: the answer of an empty collection. *)
Definition empty_result : query_result :=
  mk_query_result (Some [[]]) (Some [[]]) (Some [[]]).

Definition empty_query (e : vec) (n : Z) (w : unit)
  : result query_result * unit :=
  (Ok empty_result, w).

(** An answer whose second document has lost its metadata. *)
Definition incomplete_result : query_result :=
  mk_query_result
    (Some [["beta"; "alpha"]])
    (Some [[Some (mk_metadata None (Some "4")); None]])
    None.

Definition incomplete_query (e : vec) (n : Z) (w : unit)
  : result query_result * unit :=
  (Ok incomplete_result, w).

(** An embedding model that hands back the vector of the first text only. *)
Definition short_encode (texts : list string) (w : unit)
  : result (list vec) * unit :=
  (Ok (map demo_embed (firstn 1 texts)), w).

(** The client when the collection exists, and when it does not. *)
Definition present_collection (w : unit) : result unit * unit := (Ok tt, w).

Definition absent_collection (w : unit) : result unit * unit :=
  (Raise ValueError, w).

(** * Properties *)

(** ** Facts about the ordered dictionary *)

Section OrderedDictFacts.

Variable V : Type.
Implicit Types (d : ordered_dict V) (k : string) (v : V).

Lemma od_get_None_iff d k : od_get k d = None <-> ~ In k (od_keys d).
Proof.
  induction d as [|[k' v'] t IH]; simpl.
  - tauto.
  - destruct (String.eqb_spec k k') as [->|Hne].
    + split; [discriminate | intros H; exfalso; apply H; now left].
    + rewrite IH. split; intros H.
      * intros [Heq|Hin]; [now apply Hne | now apply H].
      * intros Hin. apply H. now right.
Qed.

Lemma od_get_Some_In d k v : od_get k d = Some v -> In (k, v) d.
Proof.
  induction d as [|[k' v'] t IH]; simpl; [discriminate|].
  destruct (String.eqb_spec k k') as [->|Hne].
  - intros [= ->]. now left.
  - intros H. right. now apply IH.
Qed.

Lemma od_setitem_fresh d k v :
  od_get k d = None -> od_setitem k v d = d ++ [(k, v)].
Proof.
  induction d as [|[k' v'] t IH]; simpl; [reflexivity|].
  destruct (String.eqb k k'); [discriminate|].
  intros H. now rewrite IH.
Qed.

Lemma od_remove_perm d k v :
  od_get k d = Some v -> Permutation d ((k, v) :: od_remove k d).
Proof.
  induction d as [|[k' v'] t IH]; simpl; [discriminate|].
  destruct (String.eqb_spec k k') as [->|Hne].
  - intros [= ->]. reflexivity.
  - intros H. rewrite perm_swap. constructor. now apply IH.
Qed.

Lemma od_remove_length d k v :
  od_get k d = Some v -> S (List.length (od_remove k d)) = List.length d.
Proof.
  intros H. apply od_remove_perm in H. apply Permutation_length in H.
  simpl in H. now symmetry.
Qed.

Lemma od_keys_remove d k :
  NoDup (od_keys d) ->
  od_keys (od_remove k d) = remove string_dec k (od_keys d).
Proof.
  induction d as [|[k' v'] t IH]; simpl; [reflexivity|].
  intros Hnd. inversion Hnd as [|? ? Hnotin Hnd']; subst.
  destruct (String.eqb_spec k k') as [->|Hne].
  - destruct (string_dec k' k') as [_|Hc]; [|now elim Hc].
    symmetry. now apply notin_remove.
  - destruct (string_dec k k') as [Heq|_]; [now elim Hne|].
    simpl. f_equal. now apply IH.
Qed.

Lemma od_keys_app d1 d2 : od_keys (d1 ++ d2) = od_keys d1 ++ od_keys d2.
Proof. apply map_app. Qed.

End OrderedDictFacts.

(** ** Recency of use *)

Lemma mru_In (hist : list string) (k : string) : In k (mru hist) <-> In k hist.
Proof.
  induction hist as [|q h IH]; simpl; [tauto|].
  destruct (string_dec q k) as [->|Hne].
  - split; intros _; now left.
  - split.
    + intros [H|H]; [now left|]. apply in_remove in H. right. now apply IH.
    + intros [H|H]; [now left|]. right. apply in_in_remove; [congruence|].
      now apply IH.
Qed.

Lemma NoDup_remove_string (l : list string) (q : string) :
  NoDup l -> NoDup (remove string_dec q l).
Proof.
  induction 1 as [|x l Hx Hnd IH]; simpl; [constructor|].
  destruct (string_dec q x); [assumption|].
  constructor; [|assumption].
  intros H. apply in_remove in H. now apply Hx.
Qed.

Lemma mru_NoDup (hist : list string) : NoDup (mru hist).
Proof.
  induction hist as [|q h IH]; simpl; constructor.
  - apply remove_In.
  - now apply NoDup_remove_string.
Qed.

Lemma firstn_incl (A : Type) (n : nat) (l : list A) (x : A) :
  In x (firstn n l) -> In x l.
Proof.
  revert n. induction l as [|y l IH]; intros [|n]; simpl; try tauto.
  intros [H|H]; [now left | right; eauto].
Qed.

Lemma firstn_remove_hit (q : string) (l : list string) (n : nat) :
  NoDup l -> In q (firstn (S n) l) ->
  remove string_dec q (firstn (S n) l) = firstn n (remove string_dec q l).
Proof.
  intros Hnd. revert n.
  induction Hnd as [|x l Hx Hnd IH]; intros n Hin; [now destruct Hin|].
  simpl in *. destruct (string_dec q x) as [->|Hne].
  - rewrite !notin_remove; [reflexivity|assumption|].
    intros H. apply Hx. eapply firstn_incl; eauto.
  - destruct Hin as [Heq|Hin]; [congruence|].
    destruct n as [|n]; [now destruct Hin|].
    simpl. f_equal. now apply IH.
Qed.

Lemma firstn_remove_miss (q : string) (l : list string) (n : nat) :
  ~ In q (firstn n l) ->
  firstn n (remove string_dec q l) = firstn n l.
Proof.
  revert n. induction l as [|x l IH]; intros n Hn.
  - reflexivity.
  - destruct n as [|n]; [reflexivity|]. simpl in *.
    destruct (string_dec q x) as [->|Hne]; [elim Hn; now left|].
    simpl. f_equal. apply IH. intros H. apply Hn. now right.
Qed.

Lemma remove_split (q k : string) (l a b : list string) :
  remove string_dec q l = a ++ k :: b ->
  exists a' b', l = a' ++ k :: b' /\ (forall x, In x a -> In x a').
Proof.
  revert a. induction l as [|y l IH]; intros a H; simpl in H.
  - now destruct a.
  - destruct (string_dec q y) as [->|Hne].
    + destruct (IH _ H) as (a' & b' & -> & Hsub).
      exists (y :: a'), b'. split; [reflexivity|]. intros x Hx. right. auto.
    + destruct a as [|a0 a]; simpl in H; injection H as -> H.
      * exists [], l. split; [reflexivity|]. intros x [].
      * destruct (IH _ H) as (a' & b' & -> & Hsub).
        exists (a0 :: a'), b'. split; [reflexivity|].
        intros x [Hx|Hx]; [now left | right; auto].
Qed.

(** A query found in [mru] behind some others was last used before each of
    them: the history splits at its latest use, and the others all occur in
    the more recent part. *)
Lemma mru_split (hist a b : list string) (k : string) :
  mru hist = a ++ k :: b ->
  exists h1 h2, hist = h1 ++ k :: h2 /\ ~ In k h1 /\
                (forall x, In x a -> In x h1).
Proof.
  revert a b. induction hist as [|q h IH]; intros a b H; simpl in H.
  - now destruct a.
  - destruct a as [|a0 a]; simpl in H; injection H as -> H.
    + exists [], h. split; [reflexivity|]. split; [tauto|]. intros x [].
    + assert (Hk : In k (remove string_dec a0 (mru h)))
        by (rewrite H; apply in_elt).
      apply in_remove in Hk. destruct Hk as [_ Hne].
      destruct (remove_split _ _ _ _ _ H) as (a' & b' & Hm & Hsub).
      destruct (IH _ _ Hm) as (h1 & h2 & -> & Hnot & Hin).
      exists (a0 :: h1), h2. split; [reflexivity|]. split.
      * intros [Heq|Hx]; [congruence | now apply Hnot].
      * intros x [Hx|Hx]; [now left | right; auto].
Qed.

(** ** The retriever leaves the cache alone and never raises *)

Section CacheProperties.

Variable W : Type.
Variable encode : list string -> W -> result (list vec) * W.
Variable collection_query : vec -> Z -> W -> result query_result * W.

Local Abbreviation retrieve := (retrieve_relevant_chunks encode collection_query).
Local Abbreviation lookup := (get_relevant_context encode collection_query).

Lemma keeps_ret (A : Type) (a : A) : keeps_cache (ret (W:=W) a).
Proof. now intros st. Qed.

Lemma keeps_lift (A : Type) (r : result A) : keeps_cache (lift (W:=W) r).
Proof. now intros st. Qed.

Lemma keeps_service (A : Type) (ev : event) (f : W -> result A * W) :
  keeps_cache (service ev f).
Proof. intros st. unfold service. now destruct (f (world st)). Qed.

Lemma keeps_bind (A B : Type) (m : M W A) (k : A -> M W B) :
  keeps_cache m -> (forall a, keeps_cache (k a)) -> keeps_cache (bind m k).
Proof.
  intros Hm Hk st. unfold bind. specialize (Hm st).
  destruct (m st) as [[a|e] st']; simpl in *; [|assumption].
  now rewrite Hk.
Qed.

Lemma keeps_try_except (A : Type) (m : M W A) (a : A) :
  keeps_cache m -> keeps_cache (try_except m a).
Proof.
  intros Hm st. unfold try_except. specialize (Hm st).
  now destruct (m st) as [[?|?] ?].
Qed.

Create HintDb keeps.

Hint Resolve keeps_ret keeps_lift keeps_service keeps_bind
  keeps_try_except : keeps.

Lemma keeps_encode_batches (bs : list (list string)) :
  keeps_cache (encode_batches encode bs).
Proof.
  induction bs as [|b bs IH]; simpl; unfold call_encode; auto 6 with keeps.
Qed.

Hint Resolve keeps_encode_batches : keeps.

Lemma keeps_rerank (e : vec) (cs : list chunk) :
  keeps_cache (rerank encode e cs).
Proof. destruct cs; unfold rerank; auto 6 with keeps. Qed.

Hint Resolve keeps_rerank : keeps.

Lemma keeps_retrieve (q : string) (n : Z) : keeps_cache (retrieve q n).
Proof.
  unfold retrieve_relevant_chunks, retrieve_body, call_encode, call_query.
  auto 10 with keeps.
Qed.

Lemma retrieve_total (q : string) (n : Z) (st : rag W) :
  exists chunks st', retrieve q n st = (Ok chunks, st').
Proof.
  unfold retrieve_relevant_chunks, try_except.
  destruct (retrieve_body encode collection_query q n st) as [[cs|e] st'];
    eauto.
Qed.

(** The two paths of [get_relevant_context], spelled out. *)

Lemma lookup_hit (q : string) (n : Z) (st : rag W) (v : string) :
  od_get q (query_cache st) = Some v ->
  lookup q n st =
    (Ok v, mk_rag (od_remove q (query_cache st) ++ [(q, v)])
             (world st) (calls st)).
Proof.
  intros H. unfold get_relevant_context, bind, get_cache. rewrite H.
  unfold lift, od_move_to_end. now rewrite H.
Qed.

Lemma lookup_miss (q : string) (n : Z) (st : rag W) :
  od_get q (query_cache st) = None ->
  exists chunks st1,
    retrieve q n st = (Ok chunks, st1) /\
    query_cache st1 = query_cache st /\
    let v := format_context_for_llm chunks in
    let d := query_cache st ++ [(q, v)] in
    lookup q n st =
      (Ok v, mk_rag (if Nat.ltb max_cache_size (List.length d)
                     then tl d else d)
               (world st1) (calls st1)).
Proof.
  intros H. destruct (retrieve_total q n st) as (chunks & st1 & Hr).
  pose proof (keeps_retrieve q n st) as Hk. rewrite Hr in Hk. simpl in Hk.
  exists chunks, st1. split; [assumption|]. split; [assumption|].
  cbv zeta. unfold get_relevant_context, bind, get_cache. rewrite H, Hr.
  rewrite Hk, od_setitem_fresh by assumption.
  unfold set_cache; simpl.
  destruct (Nat.ltb max_cache_size _) eqn:Hfull; [|reflexivity].
  unfold lift, od_popitem_first.
  destruct (query_cache st ++ [(q, format_context_for_llm chunks)]) eqn:Hd;
    [now destruct (query_cache st)|reflexivity].
Qed.



(** C6: a query that is a key of the cache is answered from the cache.  The
    stored value comes back, the entry moves to the most-recently-used end,
    the others keep their order, and neither the embedding model nor the
    collection is called: the event log and the world are unchanged, and the
    cache holds the same entries as before. *)
Theorem cache_hit_skips_retrieval (q : string) (n : Z) (st : rag W) (v : string) :
  od_get q (query_cache st) = Some v ->
  exists st',
    lookup q n st = (Ok v, st') /\
    query_cache st' = od_remove q (query_cache st) ++ [(q, v)] /\
    calls st' = calls st /\
    world st' = world st /\
    Permutation (query_cache st) (query_cache st') /\
    List.length (query_cache st') = List.length (query_cache st).
Proof.
  intros H. rewrite (lookup_hit q n st v H). eexists. split; [reflexivity|].
  simpl.
  assert (Hp : Permutation (query_cache st)
                 (od_remove q (query_cache st) ++ [(q, v)])).
  { rewrite (od_remove_perm _ _ _ _ H) at 1. apply Permutation_cons_append. }
  repeat split; trivial.
  symmetry. now apply Permutation_length.
Qed.


(** *** The cache as the most recently used queries *)

Lemma rev_tl (A : Type) (l : list A) : rev (tl l) = removelast (rev l).
Proof.
  destruct l as [|a t]; simpl; [reflexivity|]. now rewrite removelast_last.
Qed.

Lemma removelast_cons_ne (A : Type) (a : A) (l : list A) :
  l <> [] -> removelast (a :: l) = a :: removelast l.
Proof. destruct l; [congruence | reflexivity]. Qed.

Lemma remove_rev (q : string) (l : list string) :
  remove string_dec q (rev l) = rev (remove string_dec q l).
Proof.
  induction l as [|a l IH]; simpl; [reflexivity|].
  rewrite remove_app, IH. simpl.
  destruct (string_dec q a); simpl; [now rewrite app_nil_r | reflexivity].
Qed.

Lemma NoDup_firstn_string (n : nat) (l : list string) :
  NoDup l -> NoDup (firstn n l).
Proof.
  intros H. revert n. induction H as [|x l Hx Hnd IH]; intros [|n]; simpl;
    try constructor; auto.
  intros Hin. apply Hx. eapply firstn_incl; eauto.
Qed.

Lemma recency_inv_bound (hist : list string) (st : rag W) :
  recency_inv hist st -> List.length (query_cache st) <= max_cache_size.
Proof.
  intros H. apply (f_equal (@List.length _)) in H.
  rewrite length_rev, length_firstn in H. unfold od_keys in H.
  rewrite length_map in H. lia.
Qed.

Lemma recency_inv_NoDup (hist : list string) (st : rag W) :
  recency_inv hist st -> NoDup (od_keys (query_cache st)).
Proof.
  intros H. rewrite <- (rev_involutive (od_keys _)). apply NoDup_rev.
  rewrite H. apply NoDup_firstn_string, mru_NoDup.
Qed.

Lemma recency_inv_step (hist : list string) (q : string) (n : Z) (st : rag W) :
  recency_inv hist st -> recency_inv (q :: hist) (snd (lookup q n st)).
Proof.
  intros Hinv. pose proof (recency_inv_NoDup _ _ Hinv) as Hnd.
  pose proof (recency_inv_bound _ _ Hinv) as Hle.
  unfold recency_inv in *. cbn [mru].
  change max_cache_size with (S 127) at 1. rewrite firstn_cons.
  destruct (od_get q (query_cache st)) as [v|] eqn:Hq.
  - rewrite (lookup_hit q n st v Hq). cbn [snd query_cache].
    rewrite od_keys_app, rev_app_distr, od_keys_remove by assumption.
    cbn [od_keys map fst rev app]. f_equal. rewrite <- remove_rev, Hinv.
    apply firstn_remove_hit; [apply mru_NoDup|].
    change (S 127) with max_cache_size. rewrite <- Hinv, <- in_rev.
    apply od_get_Some_In in Hq.
    change q with (fst (q, v)). now apply in_map.
  - destruct (lookup_miss q n st Hq) as (cs & st1 & _ & _ & Hl).
    cbv zeta in Hl. rewrite Hl. cbn [snd query_cache]. clear Hl.
    set (v := format_context_for_llm cs).
    assert (Hnotin : ~ In q (firstn max_cache_size (mru hist))).
    { rewrite <- Hinv, <- in_rev. now apply od_get_None_iff. }
    assert (Hlen : List.length (firstn max_cache_size (mru hist))
                   = List.length (query_cache st)).
    { rewrite <- Hinv, length_rev. apply length_map. }
    rewrite length_app. cbn [List.length].
    destruct (Nat.ltb_spec max_cache_size (List.length (query_cache st) + 1))
      as [Hfull|Hroom].
    + assert (Hk : od_keys (tl (query_cache st ++ [(q, v)]))
                   = tl (od_keys (query_cache st) ++ [q])).
      { destruct (query_cache st); simpl; [reflexivity | apply map_app]. }
      rewrite Hk, rev_tl, rev_app_distr. cbn [rev app].
      rewrite removelast_cons_ne.
      2:{ intros Hrev. apply (f_equal (@List.length _)) in Hrev.
          rewrite length_rev in Hrev. unfold od_keys in Hrev.
          rewrite length_map in Hrev. simpl in Hrev.
          unfold max_cache_size in Hfull. lia. }
      rewrite Hinv. f_equal.
      change max_cache_size with (S 127).
      rewrite removelast_firstn.
      * symmetry. apply firstn_remove_miss. intros Hin. apply Hnotin.
        rewrite <- (firstn_skipn 127 (firstn max_cache_size (mru hist))).
        apply in_or_app. left. rewrite firstn_firstn. exact Hin.
      * rewrite length_firstn in Hlen. unfold max_cache_size in *. lia.
    + rewrite od_keys_app, rev_app_distr. cbn [od_keys map fst rev app].
      f_equal. rewrite Hinv.
      rewrite length_firstn in Hlen.
      assert (Hshort : List.length (mru hist) <= 127)
        by (unfold max_cache_size in *; lia).
      rewrite firstn_all2 in Hnotin by (unfold max_cache_size; lia).
      rewrite (notin_remove string_dec _ _ Hnotin).
      now rewrite !firstn_all2 by (unfold max_cache_size; lia).
Qed.

Lemma recency_inv_run (qs : list (string * Z)) (hist : list string) (st : rag W) :
  recency_inv hist st ->
  recency_inv (rev (map fst qs) ++ hist)
    (run_queries encode collection_query qs st).
Proof.
  revert hist st. induction qs as [|[q n] qs IH]; intros hist st H.
  - exact H.
  - simpl. rewrite <- app_assoc. simpl. apply IH.
    now apply recency_inv_step.
Qed.

(** C1: after any sequence of [get_relevant_context] calls on a fresh
    cache, the cache holds at most [max_cache_size] = 128 entries, and so it
    does after one more call.  Read from its newest end it lists the 128
    most recently used distinct queries, where a use is an insertion or a
    hit.  A miss under capacity appends the new entry and evicts nothing.  A
    miss at capacity drops exactly the first entry and appends the new one;
    the dropped key is the least recently used of the cached keys: the
    history splits at its latest use, and every other cached key was asked
    for after that. *)
Theorem cache_is_bounded_lru
  (w : W) (log : list event) (qs : list (string * Z)) (q : string) (n : Z) :
  let st := run_queries encode collection_query qs (mk_rag [] w log) in
  let hist := rev (map fst qs) in
  let st' := snd (lookup q n st) in
  List.length (query_cache st) <= max_cache_size /\
  List.length (query_cache st') <= max_cache_size /\
  rev (od_keys (query_cache st)) = firstn max_cache_size (mru hist) /\
  (od_get q (query_cache st) = None ->
   exists v,
     fst (lookup q n st) = Ok v /\
     (List.length (query_cache st) < max_cache_size ->
      query_cache st' = query_cache st ++ [(q, v)]) /\
     (List.length (query_cache st) = max_cache_size ->
      exists lru rest h1 h2,
        query_cache st = lru :: rest /\
        query_cache st' = rest ++ [(q, v)] /\
        hist = h1 ++ fst lru :: h2 /\
        ~ In (fst lru) h1 /\
        (forall k, In k (od_keys rest) -> In k h1))).
Proof.
  intros st hist st'.
  assert (Hinv : recency_inv hist st).
  { unfold hist, st. rewrite <- (app_nil_r (rev _)).
    apply recency_inv_run. reflexivity. }
  pose proof (recency_inv_step hist q n st Hinv) as Hinv'.
  split; [eapply recency_inv_bound; eauto|].
  split; [eapply recency_inv_bound; eauto|].
  split; [exact Hinv|].
  intros Hq. destruct (lookup_miss q n st Hq) as (cs & st1 & _ & _ & Hl).
  cbv zeta in Hl. exists (format_context_for_llm cs).
  unfold st'. rewrite Hl. cbn [fst snd query_cache]. clear Hl.
  split; [reflexivity|]. rewrite length_app. cbn [List.length]. split.
  - intros Hlt.
    destruct (Nat.ltb_spec max_cache_size (List.length (query_cache st) + 1));
      [lia | reflexivity].
  - intros Heq.
    destruct (Nat.ltb_spec max_cache_size (List.length (query_cache st) + 1));
      [|lia].
    destruct (query_cache st) as [|lru rest] eqn:Hc;
      [unfold max_cache_size in Heq; discriminate|].
    unfold recency_inv in Hinv. rewrite Hc in Hinv.
    cbn [od_keys map rev] in Hinv.
    assert (Hm : mru hist = rev (map fst rest)
                   ++ fst lru :: skipn max_cache_size (mru hist)).
    { rewrite <- (firstn_skipn max_cache_size (mru hist)) at 1.
      rewrite <- Hinv, <- app_assoc. reflexivity. }
    destruct (mru_split _ _ _ _ Hm) as (h1 & h2 & Hh & Hnot & Hin).
    exists lru, rest, h1, h2. repeat split; trivial.
    intros k Hk. apply Hin. now apply -> in_rev.
Qed.

End CacheProperties.

(** ** Binary64 arithmetic

    The facts about the primitive floats the cosine and the sort rest on, read
    off the operations' specifications over [spec_float]. *)

Section FloatFacts.

Lemma SFcompare_antisym (x y : spec_float) :
  SFcompare y x = option_map CompOpp (SFcompare x y).
Proof.
  destruct x as [sx|sx| |sx mx ex], y as [sy|sy| |sy my ey]; simpl;
    try reflexivity;
    try (destruct sx; reflexivity); try (destruct sy; reflexivity);
    try (destruct sx, sy; reflexivity).
  destruct sx, sy; simpl; try reflexivity;
    rewrite (Z.compare_antisym ex ey);
    destruct (Z.compare ex ey); simpl; try reflexivity;
    rewrite (Pos.compare_cont_antisym mx my Eq); simpl;
    destruct (Pos.compare_cont Eq my mx); reflexivity.
Qed.

Lemma SFcompare_Eq_trans (x y s : spec_float) :
  SFcompare x s = Some Eq -> SFcompare y s = Some Eq ->
  SFcompare x y = Some Eq.
Proof.
  destruct x as [sx|sx| |sx mx ex], s as [ss|ss| |ss ms es],
    y as [sy|sy| |sy my ey]; simpl; try discriminate; try reflexivity;
    try (destruct sx; discriminate); try (destruct sy; discriminate);
    try (destruct ss; discriminate);
    try (destruct sx, ss, sy; (discriminate || reflexivity)).
  destruct sx, ss, sy; try discriminate;
    destruct (Z.compare_spec ex es); try discriminate;
    destruct (Z.compare_spec ey es); try discriminate; subst;
    rewrite Z.compare_refl;
    intros H1 H2.
  - injection H1 as H1. injection H2 as H2.
    apply (f_equal CompOpp) in H1, H2. rewrite CompOpp_involutive in H1, H2.
    simpl in H1, H2.
    apply Pos.compare_eq in H1, H2. subst. now rewrite Pos.compare_cont_refl.
  - injection H1 as H1. injection H2 as H2.
    apply Pos.compare_eq in H1, H2. subst. now rewrite Pos.compare_cont_refl.
Qed.

Lemma ltb_leb (x y : float) :
  PrimFloat.ltb x y = true -> PrimFloat.leb x y = true.
Proof.
  rewrite ltb_spec, leb_spec. unfold SFltb, SFleb.
  now destruct (SFcompare _ _) as [[]|].
Qed.

Lemma not_nan_compare (x y : float) :
  is_nan x = false -> is_nan y = false ->
  exists c, SFcompare (Prim2SF x) (Prim2SF y) = Some c.
Proof.
  unfold is_nan. rewrite !negb_false_iff, !eqb_spec. unfold SFeqb.
  destruct (Prim2SF x), (Prim2SF y); simpl; try discriminate; eauto.
Qed.

Lemma not_ltb_leb (x y : float) :
  is_nan x = false -> is_nan y = false ->
  PrimFloat.ltb x y = false -> PrimFloat.leb y x = true.
Proof.
  intros Hx Hy. destruct (not_nan_compare x y Hx Hy) as [c Hc].
  rewrite ltb_spec, leb_spec. unfold SFltb, SFleb.
  rewrite (SFcompare_antisym (Prim2SF x) (Prim2SF y)), Hc.
  now destruct c.
Qed.

Lemma eqb_not_ltb (x y s : float) :
  PrimFloat.eqb x s = true -> PrimFloat.eqb y s = true ->
  PrimFloat.ltb x y = false.
Proof.
  rewrite !eqb_spec, ltb_spec. unfold SFeqb, SFltb. intros H1 H2.
  rewrite (SFcompare_Eq_trans (Prim2SF x) (Prim2SF y) (Prim2SF s)).
  - reflexivity.
  - now destruct (SFcompare (Prim2SF x) (Prim2SF s)) as [[]|].
  - now destruct (SFcompare (Prim2SF y) (Prim2SF s)) as [[]|].
Qed.

Lemma SFmul_comm (x y : spec_float) : SF64mul x y = SF64mul y x.
Proof.
  unfold SF64mul.
  destruct x as [sx|sx| |sx mx ex], y as [sy|sy| |sy my ey]; simpl;
    try reflexivity; try (now rewrite xorb_comm).
  now rewrite xorb_comm, Pos.mul_comm, Z.add_comm.
Qed.

Lemma float_mul_comm (x y : float) : PrimFloat.mul x y = PrimFloat.mul y x.
Proof. apply Prim2SF_inj. rewrite !mul_spec. apply SFmul_comm. Qed.

Lemma round_aux_not_negative (m e : Z) (l : SpecFloat.location) :
  sf_not_negative (binary_round_aux prec emax false m e l).
Proof.
  unfold binary_round_aux.
  destruct (shr_fexp prec emax m e l) as [mrs' e'].
  destruct (shr_fexp prec emax _ e' SpecFloat.loc_Exact) as [mrs'' e''].
  destruct (shr_m mrs''); simpl; trivial.
  destruct (Z.leb e'' _); reflexivity.
Qed.

Lemma round_not_negative (m : positive) (e : Z) :
  sf_not_negative (binary_round prec emax false m e).
Proof.
  unfold binary_round. destruct (shl_align m e _) as [mz ez].
  apply round_aux_not_negative.
Qed.

Lemma SFmul_square_not_negative (x : spec_float) :
  sf_not_negative (SF64mul x x).
Proof.
  destruct x as [s|s| |s m e]; simpl; trivial; try now destruct s.
  unfold SF64mul, SFmul. rewrite xorb_nilpotent.
  apply round_aux_not_negative.
Qed.

Lemma SFadd_not_negative (x y : spec_float) :
  sf_not_negative x -> sf_not_negative y -> sf_not_negative (SF64add x y).
Proof.
  destruct x as [sx|sx| |sx mx ex], y as [sy|sy| |sy my ey]; simpl;
    intros Hx Hy; subst; trivial;
    try (now destruct sx); try (now destruct sy);
    try (now destruct sx, sy); try reflexivity.
  apply round_not_negative.
Qed.

Lemma not_negative_ltb (x : float) :
  sf_not_negative (Prim2SF x) -> PrimFloat.ltb x 0 = false.
Proof.
  rewrite ltb_spec. change (Prim2SF 0) with (S754_zero false).
  unfold SFltb. destruct (Prim2SF x) as [s|s| |s m e]; simpl; trivial;
    now intros ->.
Qed.

Lemma eqb_zero_inv (x : float) :
  PrimFloat.eqb x 0 = true -> x = 0%float \/ x = (-0)%float.
Proof.
  rewrite eqb_spec. change (Prim2SF 0) with (S754_zero false).
  unfold SFeqb. destruct (Prim2SF x) as [s|s| |s m e] eqn:E; simpl;
    try discriminate; try (destruct s; discriminate).
  intros _. destruct s; [right | left]; apply Prim2SF_inj; now rewrite E.
Qed.

End FloatFacts.

(** ** Rounding and magnitude

    The product of two square roots cannot underflow to zero: a square root
    that is not zero is at least [2^-537], and rounding keeps a product of
    two such numbers at or above the smallest subnormal. *)

Section RoundingFacts.

Local Open Scope Z_scope.

Lemma digits2_log2 (p : positive) :
  Z.pos (digits2_pos p) = Z.log2 (Z.pos p) + 1.
Proof.
  induction p as [p IH|p IH|]; cbn [digits2_pos]; try reflexivity.
  - rewrite Pos2Z.inj_succ, Pos2Z.inj_xI.
    rewrite Z.log2_succ_double by lia. lia.
  - rewrite Pos2Z.inj_succ, Pos2Z.inj_xO.
    rewrite Z.log2_double by lia. lia.
Qed.

Lemma shr_1_m (mrs : shr_record) :
  0 <= shr_m mrs -> shr_m (shr_1 mrs) = shr_m mrs / 2.
Proof.
  destruct mrs as [m r s]. simpl. intros Hm.
  destruct m as [|[p|p|]|p]; simpl; try reflexivity; try lia.
  - rewrite Pos2Z.inj_xI. apply Z.div_unique with 1; lia.
  - rewrite Pos2Z.inj_xO. apply Z.div_unique with 0; lia.
Qed.

Lemma shr_iter_m (p : positive) (mrs : shr_record) :
  0 <= shr_m mrs ->
  shr_m (iter_pos shr_1 p mrs) = shr_m mrs / 2 ^ Z.pos p.
Proof.
  revert mrs. induction p as [p IH|p IH|]; intros mrs Hm; simpl iter_pos.
  - assert (H1 : 0 <= shr_m (shr_1 mrs))
      by (rewrite shr_1_m by assumption; apply Z.div_pos; lia).
    assert (H2 : 0 <= shr_m (iter_pos shr_1 p (shr_1 mrs)))
      by (rewrite IH by assumption; apply Z.div_pos; lia).
    rewrite IH, IH, shr_1_m by assumption.
    rewrite !Z.div_div by lia. f_equal.
    rewrite Pos2Z.inj_xI, <- !Z.pow_add_r, <- (Z.pow_1_r 2) at 1 by lia.
    rewrite <- Z.pow_add_r by lia. f_equal. lia.
  - assert (H2 : 0 <= shr_m (iter_pos shr_1 p mrs))
      by (rewrite IH by assumption; apply Z.div_pos; lia).
    rewrite IH, IH by assumption.
    rewrite !Z.div_div by lia. f_equal.
    rewrite Pos2Z.inj_xO, <- !Z.pow_add_r by lia. f_equal. lia.
  - now rewrite shr_1_m.
Qed.

Lemma shr_record_of_loc_m (m : Z) (l : SpecFloat.location) :
  shr_m (shr_record_of_loc m l) = m.
Proof. destruct l as [|[]]; reflexivity. Qed.

Lemma Zdigits2_log2 (m : Z) : 0 < m -> Zdigits2 m = Z.log2 m + 1.
Proof. destruct m; try lia. intros _. apply digits2_log2. Qed.

(** A right shift by the amount [fexp] asks for keeps a number that is at
    least the smallest subnormal non-zero and at its magnitude. *)
Lemma shr_fexp_keeps (m e : Z) (l : SpecFloat.location)
      (mrs' : shr_record) (e' : Z) :
  0 < m -> -1074 <= Z.log2 m + e ->
  shr_fexp prec emax m e l = (mrs', e') ->
  0 < shr_m mrs' /\ Z.log2 (shr_m mrs') + e' = Z.log2 m + e.
Proof.
  intros Hm Hmag. unfold shr_fexp, shr.
  rewrite (Zdigits2_log2 m Hm).
  destruct (fexp prec emax (Z.log2 m + 1 + e) - e) as [|n|n] eqn:Hn;
    intros [= <- <-]; rewrite ?shr_record_of_loc_m; try (split; [lia|lia]).
  rewrite shr_iter_m by (rewrite shr_record_of_loc_m; lia).
  rewrite shr_record_of_loc_m.
  assert (Hle : Z.pos n <= Z.log2 m)
    by (unfold fexp, SpecFloat.emin, prec, emax in Hn; lia).
  assert (Hpow : 2 ^ Z.pos n <= m).
  { pose proof (Z.log2_spec m Hm) as [Hlo _].
    pose proof (Z.pow_le_mono_r 2 (Z.pos n) (Z.log2 m)). lia. }
  split.
  - apply Z.div_str_pos. lia.
  - rewrite <- Z.shiftr_div_pow2, Z.log2_shiftr by lia. lia.
Qed.

Lemma round_nearest_even_ge (m : Z) (l : SpecFloat.location) :
  m <= round_nearest_even m l.
Proof.
  destruct l as [|[]]; simpl; try lia. destruct (Z.even m); lia.
Qed.

(** Rounding a number that is at least the smallest subnormal gives neither
    a zero nor a NaN, and nothing of smaller magnitude. *)
Lemma round_aux_large (s : bool) (m e : Z) (l : SpecFloat.location) :
  0 < m -> -1074 <= Z.log2 m + e ->
  match binary_round_aux prec emax s m e l with
  | S754_finite _ m' e' => Z.log2 m + e <= Z.log2 (Z.pos m') + e'
  | S754_infinity _ => True
  | _ => False
  end.
Proof.
  intros Hm Hmag. unfold binary_round_aux.
  destruct (shr_fexp prec emax m e l) as [mrs1 e1] eqn:E1.
  destruct (shr_fexp_keeps _ _ _ _ _ Hm Hmag E1) as [Hm1 Hmag1].
  set (m1' := round_nearest_even (shr_m mrs1) (loc_of_shr_record mrs1)) in *.
  pose proof (round_nearest_even_ge (shr_m mrs1) (loc_of_shr_record mrs1)) as Hge.
  fold m1' in Hge.
  assert (Hlog : Z.log2 (shr_m mrs1) <= Z.log2 m1')
    by (apply Z.log2_le_mono; lia).
  destruct (shr_fexp prec emax m1' e1 SpecFloat.loc_Exact) as [mrs2 e2] eqn:E2.
  assert (Hm1' : 0 < m1') by lia.
  assert (Hmag1' : -1074 <= Z.log2 m1' + e1) by lia.
  destruct (shr_fexp_keeps _ _ _ _ _ Hm1' Hmag1' E2) as [Hm2 Hmag2].
  destruct (shr_m mrs2) as [|m2|m2]; try lia.
  destruct (Z.leb e2 (emax - prec)); [lia | exact I].
Qed.

Lemma valid_exponent (s : bool) (m : positive) (e : Z) :
  valid_binary (S754_finite s m e) = true -> -1074 <= e.
Proof.
  unfold SpecFloat.valid_binary, bounded, canonical_mantissa, fexp,
    SpecFloat.emin, prec, emax.
  intros H. apply andb_prop in H. destruct H as [H _].
  apply Z.eqb_eq in H. lia.
Qed.

Lemma sqrt_core_large (mx : positive) (ex : Z) :
  -1074 <= ex ->
  let '(q, e', _) := SFsqrt_core_binary prec emax (Z.pos mx) ex in
  0 < q /\ -537 <= Z.log2 q + e'.
Proof.
  intros Hex. unfold SFsqrt_core_binary.
  set (e' := Z.min _ (Z.div2 ex)).
  assert (He' : 2 * e' <= ex).
  { assert (e' <= Z.div2 ex) by apply Z.le_min_r.
    rewrite Z.div2_div in H. pose proof (Z.mul_div_le ex 2). lia. }
  remember (ex - 2 * e') as s eqn:Hsdef.
  assert (Hs : 0 <= s) by lia.
  set (m' := match s with
             | 0 => Z.pos mx
             | Z.pos _ => Z.shiftl (Z.pos mx) s
             | Z.neg _ => 0
             end).
  assert (Hm' : m' = Z.pos mx * 2 ^ s).
  { unfold m'. clear - Hs. destruct s; try lia.
    now rewrite Z.shiftl_mul_pow2 by lia. }
  assert (Hpow : 2 ^ s <= m').
  { rewrite Hm'. pose proof (Z.pow_pos_nonneg 2 s). nia. }
  destruct (Z.sqrtrem m') as [q r] eqn:Hq.
  assert (Hsq : q = Z.sqrt m') by (now rewrite <- Z.sqrtrem_sqrt, Hq).
  set (k := Z.max 0 (-537 - e')).
  assert (Hk : 2 ^ k <= q).
  { rewrite Hsq. rewrite <- (Z.sqrt_square (2 ^ k)) by (apply Z.pow_nonneg; lia).
    apply Z.sqrt_le_mono. rewrite <- Z.pow_add_r by (unfold k; lia).
    transitivity (2 ^ s); [|exact Hpow].
    apply Z.pow_le_mono_r; [lia|]. unfold k. lia. }
  assert (Hq0 : 0 < q) by (pose proof (Z.pow_pos_nonneg 2 k); unfold k in *; lia).
  split; [exact Hq0|].
  assert (Hlog : k <= Z.log2 q).
  { apply Z.log2_le_pow2; [exact Hq0 | exact Hk]. }
  unfold k in Hlog. lia.
Qed.

Lemma SFsqrt_large (f : spec_float) :
  valid_binary f = true ->
  match SF64sqrt f with S754_zero _ => True | g => sf_large g end.
Proof.
  intros Hv. unfold SF64sqrt, SFsqrt.
  destruct f as [s|[|]| |[|] m e]; simpl; trivial.
  pose proof (sqrt_core_large m e (valid_exponent _ _ _ Hv)) as H.
  destruct (SFsqrt_core_binary prec emax (Z.pos m) e) as [[q e'] l].
  destruct H as [Hq Hmag].
  pose proof (round_aux_large false q e' l Hq ltac:(lia)) as Hr.
  destruct (binary_round_aux prec emax false q e' l); simpl in *; trivial; lia.
Qed.

Lemma SFmul_large (x y : spec_float) :
  sf_large x -> sf_large y ->
  match SF64mul x y with S754_zero _ => False | _ => True end.
Proof.
  unfold SF64mul.
  destruct x as [sx|sx| |sx mx ex], y as [sy|sy| |sy my ey];
    cbn [SFmul sf_large]; trivial; intros Hx Hy.
  assert (Hlog : Z.log2 (Z.pos mx) + Z.log2 (Z.pos my)
                 <= Z.log2 (Z.pos (mx * my))).
  { rewrite Pos2Z.inj_mul. apply Z.log2_mul_below; lia. }
  pose proof (round_aux_large (xorb sx sy) (Z.pos (mx * my)) (ex + ey)
                SpecFloat.loc_Exact ltac:(lia) ltac:(lia)) as Hr.
  destruct (binary_round_aux _ _ _ _ _ _); trivial.
Qed.

End RoundingFacts.

Lemma SFeqb_zero_false (f : spec_float) :
  match f with S754_zero _ => False | _ => True end ->
  SFeqb f (S754_zero false) = false.
Proof. destruct f as [s|[|]| |[|] m e]; simpl; trivial; contradiction. Qed.

Lemma sqrt_large_or_zero (x : float) :
  PrimFloat.eqb (PrimFloat.sqrt x) 0 = false ->
  sf_large (Prim2SF (PrimFloat.sqrt x)).
Proof.
  rewrite eqb_spec, sqrt_spec. change (Prim2SF 0) with (S754_zero false).
  pose proof (SFsqrt_large (Prim2SF x) (Prim2SF_valid x)) as H.
  destruct (SF64sqrt (Prim2SF x)) as [s| | |]; trivial.
  discriminate.
Qed.

(** The product of two square roots that are not zero is not zero: it does
    not underflow. *)
Lemma sqrt_product_not_zero (x y : float) :
  PrimFloat.eqb (PrimFloat.sqrt x) 0 = false ->
  PrimFloat.eqb (PrimFloat.sqrt y) 0 = false ->
  PrimFloat.eqb (PrimFloat.mul (PrimFloat.sqrt x) (PrimFloat.sqrt y)) 0 = false.
Proof.
  intros Hx Hy. apply sqrt_large_or_zero in Hx, Hy.
  rewrite eqb_spec, mul_spec. change (Prim2SF 0) with (S754_zero false).
  apply SFeqb_zero_false. now apply SFmul_large.
Qed.

(** ** The cosine *)

Lemma sum_squares_not_negative (a : vec) (acc : float) :
  sf_not_negative (Prim2SF acc) ->
  sf_not_negative (Prim2SF (fold_left PrimFloat.add (squares a) acc)).
Proof.
  revert acc. induction a as [|x a IH]; intros acc Hacc; simpl; [assumption|].
  apply IH. rewrite add_spec, mul_spec.
  apply SFadd_not_negative; [assumption | apply SFmul_square_not_negative].
Qed.

(** The square root is never taken of a negative number: [norm] returns. *)
Lemma norm_total (a : vec) :
  norm a = Ok (PrimFloat.sqrt (py_sum (squares a))).
Proof.
  unfold norm, math_sqrt. fold (squares a).
  rewrite not_negative_ltb; [reflexivity|].
  apply sum_squares_not_negative. exact I.
Qed.

Lemma dot_comm (a b : vec) : dot a b = dot b a.
Proof.
  unfold dot. f_equal. revert b.
  induction a as [|x a IH]; intros [|y b]; simpl; try reflexivity.
  now rewrite IH, float_mul_comm.
Qed.

Lemma norm_zero_vector (a : vec) : zero_vector a -> norm a = Ok 0%float.
Proof.
  intros H. rewrite norm_total.
  assert (Hs : py_sum (squares a) = 0%float).
  { unfold py_sum. induction H as [|x a Hx _ IH]; simpl; [reflexivity|].
    destruct (eqb_zero_inv x Hx) as [-> | ->]; exact IH. }
  now rewrite Hs.
Qed.

(** [cosine] never raises: the guard sends every zero norm to [0.0], and
    past the guard the divisor is not zero. *)
Lemma cosine_value (a b : vec) :
  let na := PrimFloat.sqrt (py_sum (squares a)) in
  let nb := PrimFloat.sqrt (py_sum (squares b)) in
  cosine a b =
    Ok (if PrimFloat.eqb na 0 || PrimFloat.eqb nb 0 then 0%float
        else PrimFloat.div (dot a b) (PrimFloat.mul na nb)).
Proof.
  cbv zeta. unfold cosine. rewrite (norm_total a), (norm_total b).
  cbn [rbind].
  destruct (PrimFloat.eqb (PrimFloat.sqrt (py_sum (squares a))) 0) eqn:Ha;
    [reflexivity|].
  destruct (PrimFloat.eqb (PrimFloat.sqrt (py_sum (squares b))) 0) eqn:Hb;
    [reflexivity|].
  cbn [orb]. unfold py_div.
  now rewrite (sqrt_product_not_zero _ _ Ha Hb).
Qed.

(** C4, as the code has it: [cosine] never raises and never divides by
    zero.  It returns [0.0] whenever one of the two computed norms is zero,
    so whenever an input is a zero vector; otherwise it returns the rounded
    quotient of the dot product by the rounded product of the norms.
    Swapping the arguments gives the same result. *)
Theorem cosine_guarded_and_symmetric (a b : vec) :
  let na := PrimFloat.sqrt (py_sum (squares a)) in
  let nb := PrimFloat.sqrt (py_sum (squares b)) in
  norm a = Ok na /\ norm b = Ok nb /\
  cosine a b =
    Ok (if PrimFloat.eqb na 0 || PrimFloat.eqb nb 0 then 0%float
        else PrimFloat.div (dot a b) (PrimFloat.mul na nb)) /\
  (zero_vector a \/ zero_vector b -> cosine a b = Ok 0%float) /\
  cosine a b = cosine b a.
Proof.
  intros na nb. pose proof (norm_total a) as Ha. pose proof (norm_total b) as Hb.
  fold na in Ha. fold nb in Hb.
  split; [exact Ha|]. split; [exact Hb|]. split; [apply cosine_value|]. split.
  - intros [Hz|Hz]; apply norm_zero_vector in Hz; unfold cosine.
    + rewrite Hz, Hb. reflexivity.
    + rewrite Ha, Hz. simpl. now rewrite orb_true_r.
  - rewrite (cosine_value a b), (cosine_value b a), (dot_comm a b), orb_comm.
    now rewrite float_mul_comm.
Qed.

(** C4 as stated fails: the result is not confined to [[-1, 1]].  For
    [a = b = [1.0, 1.0, 1.0]] the dot product is [3.0] and both norms are the
    rounded square root of three, whose product rounds below three; the
    quotient is [1.0000000000000002]. *)
Lemma cosine_bound_counterexample :
  exists r, cosine [1; 1; 1]%float [1; 1; 1]%float = Ok r /\
            PrimFloat.leb r 1 = false.
Proof. exists 0x1.0000000000001p+0%float. split; reflexivity. Qed.

(** ** The stable descending sort *)

Section SortFacts.

Variable A : Type.
Variable key : A -> float.

Lemma insert_desc_perm (x : A) (l : list A) :
  Permutation (insert_desc key x l) (x :: l).
Proof.
  induction l as [|y t IH]; simpl; [reflexivity|].
  destruct (PrimFloat.ltb (key x) (key y)); [|reflexivity].
  rewrite IH. apply perm_swap.
Qed.

Lemma sort_desc_perm (l : list A) : Permutation (sort_desc key l) l.
Proof.
  induction l as [|x t IH]; simpl; [reflexivity|].
  rewrite insert_desc_perm. now constructor.
Qed.

Lemma descending_cons (x y : float) (t : list float) :
  PrimFloat.leb y x = true -> descending (y :: t) -> descending (x :: y :: t).
Proof.
  intros Hxy Ht [|i] a b Ha Hb; simpl in *.
  - now injection Ha as <-; injection Hb as <-.
  - eapply Ht; eauto.
Qed.

Lemma descending_tail (x : float) (t : list float) :
  descending (x :: t) -> descending t.
Proof. intros H i a b Ha Hb. apply (H (S i)); assumption. Qed.

Lemma descending_head (x y : float) (t : list float) :
  descending (x :: y :: t) -> PrimFloat.leb y x = true.
Proof. intros H. now apply (H 0). Qed.

Lemma descending_single (x : float) : descending [x].
Proof. intros [|[|i]] a b Ha Hb; discriminate. Qed.

Lemma insert_desc_descending (x : A) (l : list A) :
  is_nan (key x) = false ->
  Forall (fun y => is_nan (key y) = false) l ->
  descending (map key l) ->
  descending (map key (insert_desc key x l)).
Proof.
  intros Hx Hl. induction Hl as [|y t Hy Ht IH]; intros Hd; simpl.
  - apply descending_single.
  - destruct (PrimFloat.ltb (key x) (key y)) eqn:Hlt; simpl.
    + specialize (IH (descending_tail _ _ Hd)).
      destruct t as [|z t]; simpl in *.
      * apply descending_cons; [now apply ltb_leb | apply descending_single].
      * destruct (PrimFloat.ltb (key x) (key z)); simpl in *.
        -- apply descending_cons; [|assumption].
           now apply descending_head in Hd.
        -- apply descending_cons; [now apply ltb_leb | assumption].
    + apply descending_cons; [now apply not_ltb_leb | assumption].
Qed.

Lemma sort_desc_descending (l : list A) :
  Forall (fun y => is_nan (key y) = false) l ->
  descending (map key (sort_desc key l)).
Proof.
  induction 1 as [|x t Hx Ht IH]; simpl.
  - intros [|i] a b Ha Hb; discriminate.
  - apply insert_desc_descending; trivial.
    eapply Permutation_Forall; [|exact Ht].
    symmetry. apply sort_desc_perm.
Qed.

(** Stability: the elements of any one score keep their relative order. *)
Lemma insert_desc_stable (s : float) (x : A) (l : list A) :
  filter (fun c => PrimFloat.eqb (key c) s) (insert_desc key x l)
  = filter (fun c => PrimFloat.eqb (key c) s) (x :: l).
Proof.
  induction l as [|y t IH]; [reflexivity|].
  cbn [insert_desc].
  destruct (PrimFloat.ltb (key x) (key y)) eqn:Hlt; [|reflexivity].
  cbn [filter] in *. rewrite IH.
  destruct (PrimFloat.eqb (key x) s) eqn:Ex;
    destruct (PrimFloat.eqb (key y) s) eqn:Ey; try reflexivity.
  now rewrite (eqb_not_ltb _ _ _ Ex Ey) in Hlt.
Qed.

Lemma sort_desc_stable (s : float) (l : list A) :
  filter (fun c => PrimFloat.eqb (key c) s) (sort_desc key l)
  = filter (fun c => PrimFloat.eqb (key c) s) l.
Proof.
  induction l as [|x t IH]; [reflexivity|].
  cbn [sort_desc fold_right]. fold (sort_desc key t).
  rewrite insert_desc_stable. cbn [filter]. now rewrite IH.
Qed.

End SortFacts.

(** ** The candidates built from a query result *)

Section MapM.

Variables A B : Type.
Variable f : A -> result B.

Lemma mapM_length (l : list A) (out : list B) :
  mapM f l = Ok out -> List.length out = List.length l.
Proof.
  revert out. induction l as [|a t IH]; simpl; intros out H.
  - now injection H as <-.
  - destruct (f a) as [b|e]; simpl in H; [|discriminate].
    destruct (mapM f t) as [bs|e]; simpl in H; [|discriminate].
    injection H as <-. simpl. f_equal. now apply IH.
Qed.

Lemma mapM_nth (l : list A) (out : list B) (i : nat) (b : B) :
  mapM f l = Ok out -> nth_error out i = Some b ->
  exists a, nth_error l i = Some a /\ f a = Ok b.
Proof.
  revert out i. induction l as [|a t IH]; simpl; intros out i H Hi.
  - injection H as <-. now destruct i.
  - destruct (f a) as [b0|e] eqn:Hf; simpl in H; [|discriminate].
    destruct (mapM f t) as [bs|e]; simpl in H; [|discriminate].
    injection H as <-. destruct i as [|i]; simpl in *.
    + injection Hi as <-. eauto.
    + eapply IH; eauto.
Qed.

Lemma mapM_ok (l : list A) :
  (forall a, In a l -> exists b, f a = Ok b) ->
  exists out, mapM f l = Ok out.
Proof.
  induction l as [|a t IH]; simpl; intros H; [eauto|].
  destruct (H a (or_introl eq_refl)) as [b ->]. simpl.
  destruct IH as [bs ->]; [intros; apply H; now right|]. simpl. eauto.
Qed.

End MapM.

Lemma nth_error_enumerate (A : Type) (k : nat) (l : list A) (i : nat) :
  nth_error (enumerate k l) i
  = option_map (fun a => (k + i, a)) (nth_error l i).
Proof.
  revert k i. induction l as [|a t IH]; intros k [|i]; simpl; trivial.
  - now rewrite Nat.add_0_r.
  - rewrite IH. now rewrite Nat.add_succ_r.
Qed.

Lemma nth_error_seq_inv (k len i j : nat) :
  nth_error (seq k len) i = Some j -> j = k + i.
Proof.
  revert k i. induction len as [|len IH]; intros k [|i]; simpl;
    try discriminate.
  - intros [= <-]. lia.
  - intros H. apply IH in H. lia.
Qed.

Lemma py_index_Ok (A : Type) (l : list A) (i : nat) (a : A) :
  py_index l i = Ok a <-> nth_error l i = Some a.
Proof.
  unfold py_index. destruct (nth_error l i); split; congruence.
Qed.

Lemma build_chunk_inv (r : query_result) (i : nat) (doc : string) (c : chunk) :
  build_chunk r (i, doc) = Ok c ->
  exists m0 rest md,
    metadatas r = Some (m0 :: rest) /\ nth_error m0 i = Some (Some md) /\
    c = candidate r i doc md.
Proof.
  unfold build_chunk, candidate, dist_at. cbn [fst snd].
  destruct (metadatas r) as [[|m0 rest]|]; try discriminate. cbn.
  destruct (py_index m0 i) as [[md|]|e] eqn:Hm; try discriminate. cbn.
  apply py_index_Ok in Hm.
  destruct (distances r) as [[|ds dss]|]; cbn.
  - intros [= <-]. eauto 6.
  - destruct (py_index ds i) as [d|e] eqn:Hd; cbn; [|discriminate].
    apply py_index_Ok in Hd. intros [= <-]. rewrite Hd. eauto 6.
  - intros [= <-]. eauto 6.
Qed.

Lemma build_chunk_ok (r : query_result) (i : nat) (doc : string)
      (m0 : list (option metadata)) (rest : list (list (option metadata)))
      (md : metadata) :
  metadatas r = Some (m0 :: rest) -> nth_error m0 i = Some (Some md) ->
  match distances r with
  | Some (ds :: _) => i < List.length ds
  | _ => True
  end ->
  build_chunk r (i, doc) = Ok (candidate r i doc md).
Proof.
  intros Hm Hi Hd. unfold build_chunk, candidate, dist_at. cbn [fst snd].
  rewrite Hm. cbn. apply py_index_Ok in Hi. rewrite Hi. cbn.
  destruct (distances r) as [[|ds dss]|]; cbn; trivial.
  destruct (nth_error ds i) as [d|] eqn:E.
  - apply py_index_Ok in E. now rewrite E.
  - apply nth_error_None in E. lia.
Qed.

(** What [build_chunks] returns is the list of candidates, in the order of
    the index's documents. *)
Lemma build_chunks_inv (r : query_result) (built : list chunk) :
  build_chunks r = Ok built ->
  built = [] \/
  exists docs rest m0 restm,
    documents r = Some (docs :: rest) /\
    metadatas r = Some (m0 :: restm) /\
    List.length built = List.length docs /\
    forall i c, nth_error built i = Some c ->
      exists doc md, nth_error docs i = Some doc /\
                     nth_error m0 i = Some (Some md) /\
                     c = candidate r i doc md.
Proof.
  unfold build_chunks.
  destruct (documents r) as [[|docs rest]|]; try (intros [= <-]; now left).
  destruct (Nat.ltb 0 (List.length docs)) eqn:Hlen;
    [|intros [= <-]; now left].
  intros H. destruct built as [|c0 built']; [now left|]. right.
  pose proof (mapM_nth _ _ _ _ _ 0 c0 H eq_refl) as (a0 & Ha0 & Hb0).
  destruct a0 as [i0 doc0].
  destruct (build_chunk_inv _ _ _ _ Hb0) as (m0 & restm & _ & Hm & _ & _).
  exists docs, rest, m0, restm. repeat split; trivial.
  - apply mapM_length in H. rewrite H. clear.
    generalize 0. induction docs; simpl; intros; [reflexivity | now f_equal].
  - intros i c Hc.
    destruct (mapM_nth _ _ _ _ _ i c H Hc) as ([j doc] & Hj & Hb).
    rewrite nth_error_enumerate in Hj.
    destruct (nth_error docs i) as [d|] eqn:Hd; [|discriminate].
    simpl in Hj. injection Hj as <- <-.
    destruct (build_chunk_inv _ _ _ _ Hb) as (m0' & restm' & md & Hm' & Hi & ->).
    rewrite Hm in Hm'. injection Hm' as <- <-. eauto.
Qed.

(** ** The retriever *)

Lemma attach_scores_keys (built : list chunk) (scores : list float) :
  List.length scores = List.length built ->
  map sort_key (attach_scores built scores) = scores.
Proof.
  revert scores. induction built as [|c t IH]; intros [|s ss] H;
    try discriminate; [reflexivity|].
  simpl. f_equal. apply IH. now injection H.
Qed.

Lemma attach_scores_nth (built : list chunk) (scores : list float) (c : chunk) :
  In c (attach_scores built scores) ->
  exists i b s, nth_error built i = Some b /\ nth_error scores i = Some s /\
                c = set_score b s.
Proof.
  revert scores. induction built as [|b t IH]; intros [|s ss] H;
    try now destruct H.
  destruct H as [<-|H].
  - exists 0, b, s. auto.
  - destruct (IH _ H) as (i & b' & s' & ? & ? & ?). exists (S i), b', s'. auto.
Qed.

Section RetrieverProperties.

Variable W : Type.
Variable encode : list string -> W -> result (list vec) * W.
Variable collection_query : vec -> Z -> W -> result query_result * W.

Local Abbreviation retrieve := (retrieve_relevant_chunks encode collection_query).

Lemma rerank_nonempty (qe : vec) (built : list chunk) :
  built <> [] ->
  rerank encode qe built =
    bind (encode_batches encode (batches 64 (map c_text built)))
      (fun chunk_embeds =>
         bind (lift (mapM (fun i =>
                       rbind (py_index chunk_embeds i) (fun e => cosine e qe))
                     (seq 0 (List.length built))))
           (fun scores =>
              ret (sort_desc sort_key (attach_scores built scores)))).
Proof. destruct built; [congruence | reflexivity]. Qed.

Lemma rerank_inv (qe : vec) (built cs : list chunk) (st st' : rag W) :
  rerank encode qe built st = (Ok cs, st') ->
  exists scores,
    scores_of W encode qe built st st' scores /\
    cs = sort_desc sort_key (attach_scores built scores).
Proof.
  assert (Hne : built = [] \/ built <> [])
    by (destruct built; [left | right]; congruence).
  destruct Hne as [->|Hne].
  - intros [= <- <-]. exists []. split; [|reflexivity].
    split; [reflexivity|]. now intros [|i].
  - rewrite (rerank_nonempty qe built Hne). unfold bind, lift, ret.
    destruct (encode_batches encode _ st) as [[ce|e] st1] eqn:Henc;
      [|discriminate].
    destruct (mapM _ (seq 0 (List.length built))) as [scores|e] eqn:Hs;
      [|discriminate].
    intros [= <- <-]. exists scores. split; [|reflexivity]. split.
    + apply mapM_length in Hs. now rewrite length_seq in Hs.
    + intros i s Hi.
      destruct (mapM_nth _ _ _ _ _ i s Hs Hi) as (j & Hj & Hc).
      apply nth_error_seq_inv in Hj. simpl in Hj. subst j.
      destruct (py_index ce i) as [e|] eqn:He; [|discriminate].
      apply py_index_Ok in He. eauto.
Qed.

Lemma retrieve_inv (q : string) (n : Z) (st st' : rag W) (cs : list chunk) :
  retrieve q n st = (Ok cs, st') ->
  cs = [] \/
  exists embs qe st1 r st2 built,
    call_encode encode [q] st = (Ok embs, st1) /\
    py_index embs 0 = Ok qe /\
    call_query collection_query qe n st1 = (Ok r, st2) /\
    build_chunks r = Ok built /\
    rerank encode qe built st2 = (Ok cs, st').
Proof.
  unfold retrieve_relevant_chunks, try_except, retrieve_body, bind, lift.
  destruct (call_encode encode [q] st) as [[embs|e] st1] eqn:He;
    [|intros [= <- _]; now left].
  destruct (py_index embs 0) as [qe|e] eqn:Hi; [|intros [= <- _]; now left].
  destruct (call_query collection_query qe n st1) as [[r|e] st2] eqn:Hq;
    [|intros [= <- _]; now left].
  destruct (build_chunks r) as [built|e] eqn:Hb;
    [|intros [= <- _]; now left].
  destruct (rerank encode qe built st2) as [[cs'|e] st3] eqn:Hr;
    [|intros [= <- _]; now left].
  intros [= <- <-]. right. exists embs, qe, st1, r, st2, built.
  repeat split; assumption.
Qed.

(** C3, as the code has it: a retrieval that returns chunks returns the
    candidates of the index's answer, each with the approximate distance
    the index gave for it (or none) and with the cosine of its re-embedded
    text against the query as its score.  When no score is a NaN, the
    chunks come in descending order of score, and those of equal score in
    the order the index ranked them. *)
Theorem rerank_sorted_and_stable
  (q : string) (n : Z) (st st' : rag W) (cs : list chunk) :
  retrieve q n st = (Ok cs, st') ->
  cs = [] \/
  exists embs qe st1 r st2 built scores,
    call_encode encode [q] st = (Ok embs, st1) /\
    py_index embs 0 = Ok qe /\
    call_query collection_query qe n st1 = (Ok r, st2) /\
    build_chunks r = Ok built /\
    scores_of W encode qe built st2 st' scores /\
    Permutation cs (attach_scores built scores) /\
    (forall c, In c cs ->
       exists i doc md s,
         nth_error scores i = Some s /\
         c = set_score (candidate r i doc md) s) /\
    (Forall (fun s => is_nan s = false) scores ->
     descending (map sort_key cs) /\
     forall s,
       filter (fun c => PrimFloat.eqb (sort_key c) s) cs
       = filter (fun c => PrimFloat.eqb (sort_key c) s)
           (attach_scores built scores)).
Proof.
  intros H. destruct (retrieve_inv _ _ _ _ _ H)
    as [->|(embs & qe & st1 & r & st2 & built & He & Hi & Hq & Hb & Hr)];
    [now left | right].
  destruct (rerank_inv _ _ _ _ _ Hr) as (scores & Hs & ->).
  exists embs, qe, st1, r, st2, built, scores.
  repeat (split; [assumption|]).
  assert (Hp : Permutation (sort_desc sort_key (attach_scores built scores))
                 (attach_scores built scores)) by apply sort_desc_perm.
  split; [exact Hp|]. split.
  - intros c Hc. apply (Permutation_in _ Hp) in Hc.
    destruct (attach_scores_nth _ _ _ Hc) as (i & b & s & Hbi & Hsi & ->).
    destruct (build_chunks_inv _ _ Hb)
      as [->|(docs & rest & m0 & restm & _ & _ & _ & Hc')];
      [now destruct i|].
    destruct (Hc' _ _ Hbi) as (doc & md & _ & _ & ->).
    exists i, doc, md, s. split; [assumption | reflexivity].
  - intros Hnan. split; [|intros s; apply sort_desc_stable].
    apply sort_desc_descending. destruct Hs as [Hlen _].
    rewrite <- (attach_scores_keys built scores Hlen) in Hnan.
    now apply Forall_map in Hnan.
Qed.

End RetrieverProperties.

(** ** Ingestion *)

Section IngestionProperties.

Variable W : Type.
Variable encode : list string -> W -> result (list vec) * W.
Variable collection_count : W -> result Z * W.
Variable collection_add : list vec -> list item -> W -> result unit * W.
Variable path_exists : W -> bool.
Variable pdf_pages : W -> result (list (option string)) * W.
Variable split_text : string -> list string.
Variable pdf_path : string.

Local Abbreviation ingest :=
  (process_pdf encode collection_count collection_add path_exists pdf_pages
     split_text pdf_path).

(** C5, as the code has it: when the collection reports a positive count,
    [process_pdf] stops there.  The count is the only call it makes to a
    service: the PDF is not read, nothing is embedded and nothing is added;
    the cache is untouched.  What it returns is [None]. *)
Theorem process_pdf_skips_populated (st : rag W) (count : Z) (w' : W) :
  collection_count (world st) = (Ok count, w') ->
  (0 < count)%Z ->
  ingest st = (Ok PyNone, mk_rag (query_cache st) w' (calls st ++ [EvCount])).
Proof.
  intros Hc Hpos. unfold process_pdf, bind, service. rewrite Hc.
  apply Z.ltb_lt in Hpos. now rewrite Hpos.
Qed.

End IngestionProperties.

(** ** The formatted context *)

Lemma append_assoc (a b c : string) : (a ^^ b) ^^ c = a ^^ b ^^ c.
Proof. induction a as [|x a IH]; simpl; [reflexivity | now rewrite IH]. Qed.

Lemma append_nil_r (a : string) : a ^^ EmptyString = a.
Proof. induction a as [|x a IH]; simpl; [reflexivity | now rewrite IH]. Qed.






Lemma concat_cons (s : string) (l : list string) :
  String.concat EmptyString (s :: l) = s ^^ String.concat EmptyString l.
Proof. destruct l; simpl; [now rewrite append_nil_r | reflexivity]. Qed.

Lemma fold_entries (ics : list (nat * chunk)) (acc : string) :
  fold_left (fun context ic => context ^^ format_entry ic) ics acc
  = acc ^^ entries ics.
Proof.
  revert acc. induction ics as [|ic t IH]; intros acc.
  - simpl. now rewrite append_nil_r.
  - cbn [fold_left]. rewrite IH. unfold entries. cbn [map].
    now rewrite concat_cons, append_assoc.
Qed.




(** ** The chunker of the specification *)

Section Segments.

Variable A : Type.
Variables chunk_size overlap : nat.
Hypothesis Hvalid : overlap < chunk_size.

Lemma segments_fuel_S (fuel : nat) (a : A) (l : list A) :
  segments_fuel (S fuel) chunk_size overlap (a :: l)
  = if Nat.leb (List.length (a :: l)) chunk_size then [a :: l]
    else firstn chunk_size (a :: l)
           :: segments_fuel fuel chunk_size overlap
                (skipn (chunk_size - overlap) (a :: l)).
Proof. reflexivity. Qed.

Lemma segments_joined (fuel : nat) (l : list A) :
  List.length l <= fuel ->
  List.concat (map (skipn overlap) (segments_fuel fuel chunk_size overlap l))
  = skipn overlap l.
Proof.
  revert l. induction fuel as [|fuel IH]; intros l Hl.
  - destruct l; [now rewrite skipn_nil | simpl in Hl; lia].
  - cbn [segments_fuel]. destruct l as [|a l']; [now rewrite skipn_nil|].
    set (l := a :: l') in *.
    destruct (Nat.leb_spec (List.length l) chunk_size) as [Hle|Hgt].
    + cbn [map List.concat]. apply app_nil_r.
    + cbn [map List.concat]. rewrite IH by (rewrite length_skipn; lia).
      rewrite skipn_skipn.
      replace (overlap + (chunk_size - overlap)) with chunk_size by lia.
      rewrite <- (firstn_skipn chunk_size l) at 3.
      rewrite skipn_app, length_firstn.
      replace (overlap - Nat.min chunk_size (List.length l)) with 0 by lia.
      reflexivity.
Qed.

Lemma segments_reassemble (l : list A) :
  match segments chunk_size overlap l with
  | [] => l = []
  | s :: rest => s ++ List.concat (map (skipn overlap) rest) = l
  end.
Proof.
  unfold segments. destruct l as [|a l']; [reflexivity|].
  change (List.length (a :: l')) with (S (List.length l')).
  rewrite segments_fuel_S. set (l := a :: l').
  assert (Hlen : List.length l = S (List.length l')) by reflexivity.
  destruct (Nat.leb_spec (List.length l) chunk_size) as [Hle|Hgt].
  - cbn [map List.concat]. apply app_nil_r.
  - rewrite segments_joined by (rewrite length_skipn; lia).
    rewrite skipn_skipn.
    replace (overlap + (chunk_size - overlap)) with chunk_size by lia.
    apply firstn_skipn.
Qed.

Lemma segments_bounded (fuel : nat) (l : list A) :
  Forall (fun s => List.length s <= chunk_size)
    (segments_fuel fuel chunk_size overlap l).
Proof.
  revert l. induction fuel as [|fuel IH]; intros l; [constructor|].
  cbn [segments_fuel]. destruct l as [|a l']; [constructor|].
  set (l := a :: l').
  destruct (Nat.leb_spec (List.length l) chunk_size) as [Hle|Hgt].
  - constructor; [assumption | constructor].
  - constructor; [|apply IH]. rewrite length_firstn. lia.
Qed.

Lemma segments_overlapping (fuel : nat) (l : list A) :
  List.length l <= fuel ->
  overlapping_lists A overlap (segments_fuel fuel chunk_size overlap l).
Proof.
  revert l. induction fuel as [|fuel IH]; intros l Hl; [exact I|].
  cbn [segments_fuel]. destruct l as [|a l']; [exact I|].
  set (l := a :: l') in *.
  destruct (Nat.leb_spec (List.length l) chunk_size) as [Hle|Hgt];
    [exact I|].
  assert (Hrest : List.length (skipn (chunk_size - overlap) l) <= fuel)
    by (rewrite length_skipn; lia).
  specialize (IH _ Hrest).
  assert (Hne : overlap < List.length (skipn (chunk_size - overlap) l))
    by (rewrite length_skipn; lia).
  destruct fuel as [|fuel']; [lia|].
  remember (skipn (chunk_size - overlap) l) as nxt eqn:Hnxt.
  cbn [segments_fuel] in *. destruct nxt as [|b nxt']; [simpl in Hne; lia|].
  set (m := b :: nxt') in *.
  assert (Hshare : skipn (List.length (firstn chunk_size l) - overlap)
                     (firstn chunk_size l) = firstn overlap m).
  { rewrite length_firstn.
    replace (Nat.min chunk_size (List.length l) - overlap)
      with (chunk_size - overlap) by lia.
    rewrite skipn_firstn_comm, <- Hnxt. f_equal. lia. }
  destruct (Nat.leb_spec (List.length m) chunk_size) as [Hle'|Hgt'].
  - split; [exact Hshare | exact I].
  - split; [|exact IH].
    rewrite Hshare, firstn_firstn. f_equal. lia.
Qed.

End Segments.

Lemma string_of_list_ascii_app (a b : list ascii) :
  string_of_list_ascii (a ++ b)
  = string_of_list_ascii a ^^ string_of_list_ascii b.
Proof. induction a as [|x a IH]; simpl; [reflexivity | now rewrite IH]. Qed.

Lemma string_of_list_ascii_concat (ls : list (list ascii)) :
  String.concat EmptyString (map string_of_list_ascii ls)
  = string_of_list_ascii (List.concat ls).
Proof.
  induction ls as [|l ls IH]; [reflexivity|].
  cbn [map List.concat]. now rewrite concat_cons, IH, string_of_list_ascii_app.
Qed.

Lemma string_of_list_ascii_length (l : list ascii) :
  String.length (string_of_list_ascii l) = List.length l.
Proof. induction l as [|x l IH]; simpl; [reflexivity | now rewrite IH]. Qed.

Lemma fresh_part_of_list (overlap : nat) (l : list ascii) :
  fresh_part overlap (string_of_list_ascii l)
  = string_of_list_ascii (skipn overlap l).
Proof.
  unfold fresh_part. now rewrite list_ascii_of_string_of_list_ascii.
Qed.

Lemma overlapping_of_lists (overlap : nat) (segs : list (list ascii)) :
  overlapping_lists ascii overlap segs ->
  overlapping overlap (map string_of_list_ascii segs).
Proof.
  induction segs as [|s1 [|s2 rest] IH]; try (intros; exact I).
  intros [Hshare Hrest]. cbn [map overlapping]. split; [|now apply IH].
  unfold str_tail, str_head.
  rewrite !list_ascii_of_string_of_list_ascii, string_of_list_ascii_length.
  now rewrite Hshare.
Qed.

Lemma enumerate_map_snd (A : Type) (k : nat) (l : list A) :
  map snd (enumerate k l) = l.
Proof.
  revert k. induction l as [|a l IH]; intros k; simpl;
    [reflexivity | now rewrite IH].
Qed.

Lemma enumerate_map_fst (A : Type) (k : nat) (l : list A) :
  map fst (enumerate k l) = seq k (List.length l).
Proof.
  revert k. induction l as [|a l IH]; intros k; simpl;
    [reflexivity | now rewrite IH].
Qed.

(** [chunk_text] keeps the segments the splitter returns, in their order,
    and numbers them from zero. *)
Lemma chunk_text_keeps_order
  (split_text : string -> list string) (pdf_path text : string) :
  map dc_text (chunk_text split_text pdf_path text) = split_text text /\
  map dc_chunk_id (chunk_text split_text pdf_path text)
  = seq 0 (List.length (split_text text)).
Proof.
  unfold chunk_text. rewrite !map_map. cbn [dc_text dc_chunk_id]. split.
  - apply enumerate_map_snd.
  - apply enumerate_map_fst.
Qed.

(** C8, for the chunker of the specification: when [overlap < chunk_size],
    the first segment followed by what each later segment adds beyond the
    [overlap] characters it repeats is the text again.  No segment is longer
    than [chunk_size], each segment starts with the last [overlap] characters
    of the one before it, and the chunks carry the segments in reading order
    under the identifiers [0, 1, 2, ...], also through [chunk_text]. *)
Theorem chunking_is_lossless
  (chunk_size overlap : nat) (source pdf_path text : string) :
  overlap < chunk_size ->
  let segs := split_segments chunk_size overlap text in
  reassemble overlap segs = text /\
  Forall (fun s => String.length s <= chunk_size) segs /\
  overlapping overlap segs /\
  chunk_spec source text chunk_size overlap
    = inr (map (fun ic => mk_doc_chunk (snd ic) (fst ic) source)
             (enumerate 0 segs)) /\
  map dc_text (chunk_text (split_segments chunk_size overlap) pdf_path text)
    = segs /\
  map dc_chunk_id (chunk_text (split_segments chunk_size overlap) pdf_path text)
    = seq 0 (List.length segs).
Proof.
  intros Hvalid segs. unfold segs, split_segments.
  set (l := list_ascii_of_string text).
  repeat split.
  - pose proof (segments_reassemble _ chunk_size overlap Hvalid l) as H.
    destruct (segments chunk_size overlap l) as [|s rest].
    + simpl. rewrite <- (string_of_list_ascii_of_string text). fold l.
      now rewrite H.
    + cbn [map reassemble]. rewrite map_map.
      rewrite (map_ext _ _ (fresh_part_of_list overlap)), <- map_map.
      rewrite string_of_list_ascii_concat, <- string_of_list_ascii_app, H.
      subst l. apply string_of_list_ascii_of_string.
  - rewrite Forall_map. unfold segments.
    eapply Forall_impl; [|now apply segments_bounded].
    intros s Hs. now rewrite string_of_list_ascii_length.
  - apply overlapping_of_lists. unfold segments.
    now apply segments_overlapping.
  - unfold chunk_spec. destruct (Nat.leb_spec chunk_size overlap); [lia|].
    reflexivity.
  - apply chunk_text_keeps_order.
  - apply (chunk_text_keeps_order (split_segments chunk_size overlap)).
Qed.


(** * Worked examples

    The theorems, run on the small worlds defined above. *)

(** A hit on the middle entry of a three-entry cache: the entry moves to the
    end and no service is called. *)
Lemma cache_hit_witness :
  let st := mk_rag [("a", "A"); ("q", "Q"); ("b", "B")] tt [] in
  od_get "q" (query_cache st) = Some "Q" /\
  exists st',
    get_relevant_context demo_encode demo_query "q" 5 st = (Ok "Q", st') /\
    query_cache st' = [("a", "A"); ("b", "B"); ("q", "Q")] /\
    calls st' = [] /\
    world st' = tt /\
    Permutation (query_cache st) (query_cache st') /\
    List.length (query_cache st') = 3.
Proof.
  split; [reflexivity|].
  exact (cache_hit_skips_retrieval unit demo_encode demo_query "q" 5
           (mk_rag [("a", "A"); ("q", "Q"); ("b", "B")] tt []) "Q" eq_refl).
Defined.


(** After the queries ["0"] to ["127"] the cache is full; the next new query
    evicts ["0"], the one asked longest ago. *)
Lemma cache_lru_witness :
  let st := run_queries demo_encode demo_query (numbered_queries 128) fresh_rag in
  let st' := snd (get_relevant_context demo_encode demo_query "128" 5 st) in
  List.length (query_cache st) = 128 /\
  od_get "128" (query_cache st) = None /\
  exists v lru rest h1 h2,
    query_cache st = lru :: rest /\
    fst lru = "0" /\
    query_cache st' = rest ++ [("128", v)] /\
    rev (map fst (numbered_queries 128)) = h1 ++ fst lru :: h2 /\
    ~ In (fst lru) h1 /\
    (forall k, In k (od_keys rest) -> In k h1).
Proof.
  intros st st'.
  assert (Hlen : List.length (query_cache st) = 128) by (vm_compute; reflexivity).
  assert (Hmiss : od_get "128" (query_cache st) = None)
    by (vm_compute; reflexivity).
  split; [exact Hlen|]. split; [exact Hmiss|].
  destruct (cache_is_bounded_lru unit demo_encode demo_query tt []
              (numbered_queries 128) "128" 5)
    as (_ & _ & _ & Hstep).
  destruct (Hstep Hmiss) as (v & _ & _ & Hevict).
  destruct (Hevict Hlen) as (lru & rest & h1 & h2 & Hc & Hc' & Hh & Hn & Hall).
  exists v, lru, rest, h1, h2. repeat split; trivial.
  change (query_cache st = lru :: rest) in Hc.
  assert (Hhead : hd_error (query_cache st) = Some lru) by (now rewrite Hc).
  assert (Hzero : option_map fst (hd_error (query_cache st)) = Some "0")
    by (vm_compute; reflexivity).
  rewrite Hhead in Hzero. now injection Hzero.
Defined.

(** The index ranks [beta] first; the rerank puts [alpha], whose score is
    [1.0], ahead of it. *)
Lemma rerank_witness :
  let cs :=
    [mk_chunk "alpha" (Some "doc.pdf") (Some "Unknown") None (Some 1%float);
     mk_chunk "beta" (Some "Unknown") (Some "4") None (Some 0%float)] in
  retrieve_relevant_chunks demo_encode demo_query "q" 5 fresh_rag
    = (Ok cs, mk_rag [] tt [EvEncode ["q"]; EvQuery [1; 0]%float 5;
                            EvEncode ["beta"; "alpha"]]) /\
  (cs = [] \/
   exists embs qe st1 r st2 built scores,
     call_encode demo_encode ["q"] fresh_rag = (Ok embs, st1) /\
     py_index embs 0 = Ok qe /\
     call_query demo_query qe 5 st1 = (Ok r, st2) /\
     build_chunks r = Ok built /\
     scores_of unit demo_encode qe built st2
       (mk_rag [] tt [EvEncode ["q"]; EvQuery [1; 0]%float 5;
                      EvEncode ["beta"; "alpha"]]) scores /\
     Permutation cs (attach_scores built scores) /\
     (forall c, In c cs ->
        exists i doc md s,
          nth_error scores i = Some s /\
          c = set_score (candidate r i doc md) s) /\
     (Forall (fun s => is_nan s = false) scores ->
      descending (map sort_key cs) /\
      forall s,
        filter (fun c => PrimFloat.eqb (sort_key c) s) cs
        = filter (fun c => PrimFloat.eqb (sort_key c) s)
            (attach_scores built scores))).
Proof.
  split; [reflexivity|].
  exact (rerank_sorted_and_stable unit demo_encode demo_query "q" 5 fresh_rag
           _ _ eq_refl).
Defined.

(** C3 as stated fails: with embeddings whose squares overflow, every norm
    and every dot product is infinite and every score is the NaN that
    infinity divided by infinity gives; [score[0] >= score[1]] is then
    false. *)
Lemma rerank_nan_counterexample :
  exists cs st',
    retrieve_relevant_chunks huge_encode demo_query "q" 5 fresh_rag
      = (Ok cs, st') /\
    exists x y,
      nth_error (map sort_key cs) 0 = Some x /\
      nth_error (map sort_key cs) 1 = Some y /\
      PrimFloat.leb y x = false.
Proof.
  eexists _, _. split; [reflexivity|].
  exists nan, nan. repeat split.
Qed.

(** Zero vectors of either sign score [0.0] on either side. *)
Lemma cosine_zero_vector_witness :
  zero_vector [0; -0]%float /\
  cosine [0; -0]%float [3; 4]%float = Ok 0%float /\
  cosine [3; 4]%float [0; -0]%float = Ok 0%float /\
  cosine [3; 4]%float [4; 3]%float = cosine [4; 3]%float [3; 4]%float.
Proof.
  assert (Hz : zero_vector [0; -0]%float) by (repeat constructor).
  split; [exact Hz|]. split; [|split].
  - exact (proj1 (proj2 (proj2 (proj2
             (cosine_guarded_and_symmetric [0; -0]%float [3; 4]%float))))
             (or_introl Hz)).
  - exact (proj1 (proj2 (proj2 (proj2
             (cosine_guarded_and_symmetric [3; 4]%float [0; -0]%float))))
             (or_intror Hz)).
  - exact (proj2 (proj2 (proj2 (proj2
             (cosine_guarded_and_symmetric [3; 4]%float [4; 3]%float))))).
Defined.

(** On a collection of three items [process_pdf] only asks for the count. *)
Lemma process_pdf_skip_witness :
  populated_count (world fresh_rag) = (Ok 3%Z, tt) /\
  (0 < 3)%Z /\
  process_pdf demo_encode populated_count no_add (fun _ => true) no_pages
    (fun _ => []) "data/book.pdf" fresh_rag
  = (Ok PyNone, mk_rag [] tt [EvCount]).
Proof.
  split; [reflexivity|]. split; [reflexivity|].
  exact (process_pdf_skips_populated unit demo_encode populated_count no_add
           (fun _ => true) no_pages (fun _ => []) "data/book.pdf"
           fresh_rag 3%Z tt eq_refl eq_refl).
Defined.

(** C5 as stated fails in its last words: on a populated collection
    [process_pdf] returns [None], which is not the integer [0]. *)
Lemma process_pdf_returns_none_counterexample :
  fst (process_pdf demo_encode populated_count no_add (fun _ => true) no_pages
         (fun _ => []) "data/book.pdf" fresh_rag) = Ok PyNone /\
  Ok PyNone <> Ok (PyInt 0).
Proof. split; [reflexivity | discriminate]. Qed.


(** Twelve characters in windows of five with an overlap of two. *)
Lemma chunking_witness :
  2 < 5 /\
  split_segments 5 2 "abcdefghijkl" = ["abcde"; "defgh"; "ghijk"; "jkl"] /\
  reassemble 2 (split_segments 5 2 "abcdefghijkl") = "abcdefghijkl".
Proof.
  split; [lia|]. split; [reflexivity|].
  exact (proj1 (chunking_is_lossless 5 2 "doc.pdf" "data/doc.pdf"
                  "abcdefghijkl" (le_n_S _ _ (le_n_S _ _ (le_n_S _ _ (le_0_n _)))))).
Defined.


(** * Further properties of the pipeline *)

(** ** The batch loops *)

Section BatchFacts.

Variable A : Type.
Variable n : nat.
Hypothesis Hn : 0 < n.

Lemma batches_fuel_concat (fuel : nat) (l : list A) :
  List.length l <= fuel -> List.concat (batches_fuel fuel n l) = l.
Proof.
  revert l. induction fuel as [|fuel IH]; intros l Hl.
  - destruct l; [reflexivity | simpl in Hl; lia].
  - destruct l as [|a l']; [reflexivity|].
    cbn [batches_fuel List.concat].
    rewrite IH; [apply firstn_skipn|].
    rewrite length_skipn. cbn [List.length] in *. lia.
Qed.

Lemma batches_fuel_sizes (fuel : nat) (l : list A) :
  Forall (fun b => b <> [] /\ List.length b <= n) (batches_fuel fuel n l).
Proof.
  revert l. induction fuel as [|fuel IH]; intros l.
  - destruct l; constructor.
  - destruct l as [|a l']; [constructor|].
    cbn [batches_fuel]. constructor; [|apply IH]. split.
    + destruct n; [lia | discriminate].
    + rewrite length_firstn. lia.
Qed.

Lemma batches_fuel_count (fuel : nat) (l : list A) :
  List.length l <= fuel ->
  List.length (batches_fuel fuel n l) = (List.length l + n - 1) / n.
Proof.
  revert l. induction fuel as [|fuel IH]; intros l Hl.
  - destruct l; [|simpl in Hl; lia]. simpl.
    symmetry. apply Nat.div_small. lia.
  - destruct l as [|a l']; [simpl; symmetry; apply Nat.div_small; lia|].
    cbn [batches_fuel]. set (l := a :: l') in *.
    assert (Hlen : List.length l = S (List.length l')) by reflexivity.
    change (List.length (firstn n l :: batches_fuel fuel n (skipn n l)))
      with (S (List.length (batches_fuel fuel n (skipn n l)))).
    rewrite IH by (rewrite length_skipn; lia).
    rewrite length_skipn.
    destruct (Nat.le_gt_cases (List.length l) n) as [Hle|Hgt].
    + replace (List.length l - n) with 0 by lia.
      rewrite (Nat.div_small (0 + n - 1)) by lia.
      apply (Nat.div_unique _ _ 1 (List.length l - 1)); lia.
    + replace (List.length l + n - 1)
        with ((List.length l - n + n - 1) + 1 * n) by lia.
      rewrite Nat.div_add by lia. lia.
Qed.

Lemma batches_concat (l : list A) : List.concat (batches n l) = l.
Proof. unfold batches. now apply batches_fuel_concat. Qed.

Lemma batches_bounded (l : list A) :
  Forall (fun b => List.length b <= n) (batches n l).
Proof.
  eapply Forall_impl; [|apply batches_fuel_sizes]. now intros b [_ Hb].
Qed.

(** X1: the slices both batch loops walk through cut the list into
    consecutive non-empty pieces of at most [n] elements: joined again they
    are the list, nothing is skipped or taken twice, and there are
    [ceil(len / n)] of them. *)
Theorem batches_partition (l : list A) :
  List.concat (batches n l) = l /\
  Forall (fun b => b <> [] /\ List.length b <= n) (batches n l) /\
  List.length (batches n l) = (List.length l + n - 1) / n.
Proof.
  unfold batches. split; [|split].
  - now apply batches_fuel_concat.
  - apply batches_fuel_sizes.
  - now apply batches_fuel_count.
Qed.

End BatchFacts.

(** ** Embedding in sub-batches *)

Section EncodeBatches.

Variable W : Type.
Variable encode : list string -> W -> result (list vec) * W.

(** Whatever the model does, [encode_batches] only calls the model: it adds
    nothing to the collection. *)
Lemma encode_batches_trace (bs : list (list string)) (st : rag W) :
  exists evs,
    calls (snd (encode_batches encode bs st)) = calls st ++ evs /\
    added_items evs = [] /\
    query_cache (snd (encode_batches encode bs st)) = query_cache st.
Proof.
  revert st. induction bs as [|b bs IH]; intros st.
  - exists []. cbn. now rewrite app_nil_r.
  - cbn [encode_batches]. unfold bind, call_encode, service.
    destruct (encode b (world st)) as [[emb|e] w1].
    + set (st1 := mk_rag (query_cache st) w1 (calls st ++ [EvEncode b])).
      destruct (IH st1) as (evs & Hc & Ha & Hq).
      exists (EvEncode b :: evs).
      destruct (encode_batches encode bs st1) as [[more|e] st2]; cbn in *;
        rewrite Hc, <- app_assoc; auto.
    + exists [EvEncode b]. cbn. auto.
Qed.

Variable f : string -> vec.
Hypothesis Hf : embeds_with encode f.

Lemma encode_batches_pointwise (bs : list (list string)) (st : rag W) :
  exists w',
    encode_batches encode bs st
    = (Ok (map f (List.concat bs)),
       mk_rag (query_cache st) w' (calls st ++ map EvEncode bs)).
Proof.
  revert st. induction bs as [|b bs IH]; intros st.
  - exists (world st). cbn. rewrite app_nil_r. now destruct st.
  - cbn [encode_batches]. unfold bind, call_encode, service.
    destruct (Hf b (world st)) as [w1 ->].
    destruct (IH (mk_rag (query_cache st) w1 (calls st ++ [EvEncode b])))
      as [w2 ->].
    exists w2. unfold ret. cbn [query_cache calls List.concat map].
    now rewrite map_app, <- app_assoc.
Qed.

(** X2: with an embedding model that is up and embeds each text on its own,
    embedding a list 64 texts at a time gives the vectors of one call on the
    whole list, in the same order.  The model is called once per slice, the
    slices are the list cut into pieces of at most 64 texts, and the cache
    is not touched. *)
Theorem sub_batching_is_transparent (texts : list string) (st : rag W) :
  exists w',
    encode_batches encode (batches 64 texts) st
    = (Ok (map f texts),
       mk_rag (query_cache st) w'
         (calls st ++ map EvEncode (batches 64 texts))) /\
    List.concat (batches 64 texts) = texts /\
    Forall (fun b => List.length b <= 64) (batches 64 texts).
Proof.
  pose proof (batches_concat string 64 (Nat.lt_0_succ _) texts) as Hcat.
  destruct (encode_batches_pointwise (batches 64 texts) st) as [w' He].
  exists w'. rewrite Hcat in He. split; [exact He|]. split; [exact Hcat|].
  apply batches_bounded. apply Nat.lt_0_succ.
Qed.

End EncodeBatches.

(** ** What ingestion hands to the collection *)

Lemma added_items_app (evs1 evs2 : list event) :
  added_items (evs1 ++ evs2) = added_items evs1 ++ added_items evs2.
Proof. apply flat_map_app. Qed.

Section IngestionTrace.

Variable W : Type.
Variable encode : list string -> W -> result (list vec) * W.
Variable collection_count : W -> result Z * W.
Variable collection_add : list vec -> list item -> W -> result unit * W.
Variable path_exists : W -> bool.
Variable pdf_pages : W -> result (list (option string)) * W.
Variable split_text : string -> list string.
Variable pdf_path : string.

Local Abbreviation ingest :=
  (process_pdf encode collection_count collection_add path_exists pdf_pages
     split_text pdf_path).

(** One round of the loop either stops while embedding, before any add, or
    calls [collection.add] once, with the batch. *)
Lemma add_batch_trace (b : list item) (st : rag W) :
  exists evs,
    calls (snd (add_batch encode collection_add b st)) = calls st ++ evs /\
    (added_items evs = [b] \/
     added_items evs = [] /\
     exists e, fst (add_batch encode collection_add b st) = Raise e).
Proof.
  unfold add_batch, bind.
  destruct (encode_batches_trace W encode (batches 64 (map it_text b)) st)
    as (evs & Hc & Ha & _).
  destruct (encode_batches encode (batches 64 (map it_text b)) st)
    as [[embs|e] st1]; cbn [snd fst] in *.
  - unfold service. destruct (collection_add embs b (world st1)) as [r w2].
    exists (evs ++ [EvAdd embs b]). cbn [snd calls].
    rewrite Hc, <- app_assoc. split; [reflexivity|]. left.
    rewrite added_items_app, Ha. reflexivity.
  - exists evs. split; [exact Hc|]. right. eauto.
Qed.

(** The batches are handed over in order, none skipped and none twice; a
    round that raises ends the loop, and what was added before stays. *)
Lemma add_batches_trace (bs : list (list item)) (st : rag W) :
  exists evs k,
    calls (snd (add_batches encode collection_add bs st)) = calls st ++ evs /\
    added_items evs = firstn k bs /\
    (fst (add_batches encode collection_add bs st) = Ok tt ->
     added_items evs = bs).
Proof.
  revert st. induction bs as [|b bs IH]; intros st.
  - exists [], 0. cbn. rewrite app_nil_r. auto.
  - cbn [add_batches]. unfold bind.
    destruct (add_batch_trace b st) as (evs1 & Hc1 & Hcase).
    destruct (add_batch encode collection_add b st) as [[[]|e] st1];
      cbn [fst snd] in *.
    + destruct Hcase as [Ha|[_ [e He]]]; [|discriminate].
      destruct (IH st1) as (evs2 & k & Hc2 & Ha2 & Hok).
      exists (evs1 ++ evs2), (S k).
      rewrite Hc2, Hc1, <- app_assoc, added_items_app, Ha, Ha2.
      split; [reflexivity|]. split; [reflexivity|].
      intros H. apply Hok in H. rewrite Ha2 in H. cbn. now rewrite H.
    + destruct Hcase as [Ha|[Ha _]].
      * exists evs1, 1. rewrite Ha. split; [exact Hc1|].
        split; [now rewrite firstn_cons, firstn_O | discriminate].
      * exists evs1, 0. rewrite Ha. split; [exact Hc1|].
        split; [reflexivity | discriminate].
Qed.

(** X3: on a collection that reports no items, with the PDF in place and
    read, [process_pdf] hands the chunks to [collection.add] in batches of at
    most 1000, in reading order, each chunk at most once.  What has been
    handed over when it stops is a prefix of the batches: a failure ends the
    loop without undoing the earlier adds.  When it returns, every chunk has
    been handed over exactly once, and what it returns is [None]. *)
Theorem process_pdf_adds_in_order
  (st : rag W) (count : Z) (w1 w2 : W) (pages : list (option string)) :
  collection_count (world st) = (Ok count, w1) ->
  (count <= 0)%Z ->
  path_exists w1 = true ->
  pdf_pages w1 = (Ok pages, w2) ->
  let text := join (nl ^^ nl) (page_texts pages) in
  let items := map item_of_chunk (chunk_text split_text pdf_path text) in
  exists evs k,
    calls (snd (ingest st))
    = calls st ++ [EvCount; EvPathExists; EvPdfRead] ++ evs /\
    added_items evs = firstn k (batches 1000 items) /\
    Forall (fun b => List.length b <= 1000) (added_items evs) /\
    (forall v, fst (ingest st) = Ok v ->
       v = PyNone /\ List.concat (added_items evs) = items).
Proof.
  intros Hcount Hle Hpath Hpages text items.
  set (st1 := mk_rag (query_cache st) w2
                (((calls st ++ [EvCount]) ++ [EvPathExists]) ++ [EvPdfRead])).
  assert (Hrun : ingest st
                 = match add_batches encode collection_add (batches 1000 items) st1 with
                   | (Ok _, st2) => (Ok PyNone, st2)
                   | (Raise e, st2) => (Raise e, st2)
                   end).
  { unfold process_pdf, bind, service at 1. rewrite Hcount.
    destruct (Z.ltb_spec 0 count) as [Hpos|_]; [lia|].
    unfold extract_text_from_pdf, bind, service.
    cbn beta iota zeta delta [world calls query_cache].
    rewrite Hpath. cbn beta iota zeta delta [negb world calls query_cache].
    rewrite Hpages. unfold ret. reflexivity. }
  rewrite Hrun. clear Hrun.
  destruct (add_batches_trace (batches 1000 items) st1) as (evs & k & Hc & Ha & Hok).
  pose proof (batches_concat item 1000 (Nat.lt_0_succ _) items) as Hcat.
  pose proof (batches_bounded item 1000 (Nat.lt_0_succ _) items) as Hsz.
  assert (Hcalls : calls st1 ++ evs
                   = calls st ++ [EvCount; EvPathExists; EvPdfRead] ++ evs).
  { unfold st1. cbn [calls]. now rewrite <- !app_assoc. }
  exists evs, k.
  destruct (add_batches encode collection_add (batches 1000 items) st1)
    as [[[]|e] st2]; cbn [fst snd] in *.
  - split; [now rewrite Hc|].
    split; [exact Ha|]. split.
    + rewrite Hok by reflexivity. exact Hsz.
    + intros v Hv. injection Hv as <-. split; [reflexivity|].
      rewrite Hok by reflexivity. exact Hcat.
  - split; [now rewrite Hc|].
    split; [exact Ha|]. split; [|discriminate].
    rewrite Ha. apply Forall_forall. intros b Hb.
    apply firstn_incl in Hb. rewrite Forall_forall in Hsz.
    now apply Hsz.
Qed.

End IngestionTrace.

(** ** The identifiers ingestion gives to the chunks *)

Lemma to_uint_not_Nil (n : nat) : Nat.to_uint n <> Decimal.Nil.
Proof.
  rewrite <- (DecimalNat.Unsigned.of_to n) at 1.
  rewrite DecimalNat.Unsigned.to_of. unfold Decimal.unorm.
  destruct (Decimal.nzhead (Nat.to_uint n)); discriminate.
Qed.

Lemma str_of_nat_inj (a b : nat) : str_of_nat a = str_of_nat b -> a = b.
Proof.
  unfold str_of_nat. intros H.
  apply (f_equal NilZero.uint_of_string) in H.
  rewrite !NilZero.usu in H by apply to_uint_not_Nil.
  injection H as H. now apply DecimalNat.Unsigned.to_uint_inj.
Qed.

Lemma append_inj_r (p a b : string) : p ^^ a = p ^^ b -> a = b.
Proof.
  induction p as [|c p IH]; simpl; [trivial|].
  intros H. injection H as H. now apply IH.
Qed.

Lemma nth_error_items
  (split_text : string -> list string) (pdf_path text : string)
  (i : nat) (it : item) :
  nth_error (map item_of_chunk (chunk_text split_text pdf_path text)) i = Some it ->
  exists seg,
    nth_error (split_text text) i = Some seg /\
    it = mk_item ("chunk_" ^^ str_of_nat i) seg
           (mk_metadata (Some (basename pdf_path)) (Some (str_of_nat i))).
Proof.
  unfold chunk_text. rewrite map_map, nth_error_map, nth_error_enumerate.
  destruct (nth_error (split_text text) i) as [seg|]; [|discriminate].
  cbn. intros [= <-]. exists seg. split; reflexivity.
Qed.

(** X4: every chunk is stored under an identifier of its own.  The items
    [process_pdf] prepares carry the splitter's segments in order; the item
    at position [i] has the identifier [chunk_<i>], the metadata
    [chunk_id] [str(i)] and the file name of the PDF as its [source]; no
    two items share an identifier, whatever the splitter returns. *)
Theorem ingested_items_are_identified
  (split_text : string -> list string) (pdf_path text : string) :
  let items := map item_of_chunk (chunk_text split_text pdf_path text) in
  map it_text items = split_text text /\
  NoDup (map it_id items) /\
  forall i it, nth_error items i = Some it ->
    it_id it = "chunk_" ^^ str_of_nat i /\
    md_chunk_id (it_meta it) = Some (str_of_nat i) /\
    md_source (it_meta it) = Some (basename pdf_path).
Proof.
  cbv zeta. split; [|split].
  - rewrite map_map. cbn [it_text item_of_chunk].
    apply (chunk_text_keeps_order split_text pdf_path text).
  - rewrite map_map. cbn [it_id item_of_chunk].
    rewrite <- (map_map dc_chunk_id (fun i => "chunk_" ^^ str_of_nat i)).
    destruct (chunk_text_keeps_order split_text pdf_path text) as [_ ->].
    apply Finite.Injective_map_NoDup; [|apply seq_NoDup].
    intros a b H. apply append_inj_r in H. now apply str_of_nat_inj.
  - intros i it H. apply nth_error_items in H. destruct H as (seg & _ & ->).
    repeat split.
Qed.

(** ** Reading the PDF *)

Lemma In_enumerate (A : Type) (k : nat) (l : list A) (x : nat * A) :
  In x (enumerate k l) <-> exists i, nth_error l i = Some (snd x) /\ fst x = k + i.
Proof.
  split.
  - intros H. apply In_nth_error in H. destruct H as [i H].
    rewrite nth_error_enumerate in H. exists i.
    destruct (nth_error l i) as [a|]; [|discriminate].
    cbn in H. injection H as <-. auto.
  - intros [i [H1 H2]]. apply (nth_error_In _ i).
    rewrite nth_error_enumerate, H1. cbn. rewrite <- H2. now destruct x.
Qed.

Lemma page_texts_length (k : nat) (pages : list (option string)) :
  List.length
    (flat_map (fun np : nat * option string =>
       match snd np with
       | Some (String c t) =>
           ["--- Page " ^^ str_of_nat (fst np) ^^ " ---" ^^ nl ^^ String c t]
       | _ => []
       end) (enumerate k pages)) <= List.length pages.
Proof.
  revert k. induction pages as [|p pages IH]; intros k; [apply Nat.le_refl|].
  cbn [enumerate flat_map]. rewrite length_app. specialize (IH (S k)).
  cbn [snd fst]. destruct p as [[|c t]|]; cbn [List.length]; lia.
Qed.

Section Extraction.

Variable W : Type.
Variable encode : list string -> W -> result (list vec) * W.
Variable collection_count : W -> result Z * W.
Variable collection_add : list vec -> list item -> W -> result unit * W.
Variable path_exists : W -> bool.
Variable pdf_pages : W -> result (list (option string)) * W.
Variable split_text : string -> list string.
Variable pdf_path : string.

Local Abbreviation extract := (extract_text_from_pdf path_exists pdf_pages).
Local Abbreviation ingest :=
  (process_pdf encode collection_count collection_add path_exists pdf_pages
     split_text pdf_path).

(** X5: the text of a PDF that is in place and can be read is its pages
    joined by blank lines, each under the header [--- Page <n> ---].  A
    block stands for exactly the pages that have text, and [n] is the page's
    position in the document counted from one: pages without text are left
    out but still counted. *)
Theorem extracted_text_numbers_pages
  (st : rag W) (pages : list (option string)) (w2 : W) :
  path_exists (world st) = true ->
  pdf_pages (world st) = (Ok pages, w2) ->
  exists blocks,
    extract st
    = (Ok (join (nl ^^ nl) blocks),
       mk_rag (query_cache st) w2 (calls st ++ [EvPathExists; EvPdfRead])) /\
    List.length blocks <= List.length pages /\
    forall s, In s blocks <->
      exists i t,
        nth_error pages i = Some (Some t) /\ t <> EmptyString /\
        s = "--- Page " ^^ str_of_nat (S i) ^^ " ---" ^^ nl ^^ t.
Proof.
  intros Hpath Hpages. exists (page_texts pages). split; [|split].
  - unfold extract_text_from_pdf, bind, service.
    cbn beta iota zeta delta [world calls query_cache].
    rewrite Hpath. cbn beta iota zeta delta [negb world calls query_cache].
    rewrite Hpages. unfold ret. now rewrite <- app_assoc.
  - apply page_texts_length.
  - intros s. unfold page_texts. rewrite in_flat_map. split.
    + intros [[n p] [Hin Hs]]. apply In_enumerate in Hin.
      destruct Hin as [i [Hnth Hn]]. cbn [fst snd] in *. subst n.
      destruct p as [[|c t]|]; try contradiction.
      destruct Hs as [<-|[]]. exists i, (String c t).
      split; [exact Hnth|]. split; [discriminate | reflexivity].
    + intros (i & t & Hnth & Ht & ->). exists (S i, Some t). split.
      * apply In_enumerate. exists i. now split.
      * cbn [fst snd]. destruct t as [|c t]; [contradiction | now left].
Qed.

(** X6: when the text cannot be extracted, nothing reaches the collection.
    On a collection that reports no items, a PDF that is missing makes
    [process_pdf] raise [FileNotFoundError] without opening anything, and a
    PDF that cannot be read makes it raise the reader's own exception; in
    both cases the model is not called and nothing is added. *)
Theorem process_pdf_extraction_failure (st : rag W) (count : Z) (w1 : W) :
  collection_count (world st) = (Ok count, w1) ->
  (count <= 0)%Z ->
  (path_exists w1 = false ->
   ingest st
   = (Raise FileNotFoundError,
      mk_rag (query_cache st) w1 (calls st ++ [EvCount; EvPathExists]))) /\
  (forall e w2,
     path_exists w1 = true ->
     pdf_pages w1 = (Raise e, w2) ->
     ingest st
     = (Raise e,
        mk_rag (query_cache st) w2
          (calls st ++ [EvCount; EvPathExists; EvPdfRead]))).
Proof.
  intros Hcount Hle. split.
  - intros Hpath. unfold process_pdf, bind, service at 1. rewrite Hcount.
    destruct (Z.ltb_spec 0 count) as [Hpos|_]; [lia|].
    unfold extract_text_from_pdf, bind, service.
    cbn beta iota zeta delta [world calls query_cache].
    rewrite Hpath. cbn beta iota zeta delta [negb]. unfold raise.
    now rewrite <- app_assoc.
  - intros e w2 Hpath Hpages. unfold process_pdf, bind, service at 1.
    rewrite Hcount.
    destruct (Z.ltb_spec 0 count) as [Hpos|_]; [lia|].
    unfold extract_text_from_pdf, bind, service.
    cbn beta iota zeta delta [world calls query_cache].
    rewrite Hpath. cbn beta iota zeta delta [negb world calls query_cache].
    rewrite Hpages. now rewrite <- !app_assoc.
Qed.

End Extraction.

(** ** What a retrieval asks of the services *)

Section MapMFacts.

Variables A B : Type.

Lemma mapM_total (g : A -> B) (l : list A) :
  mapM (fun a => Ok (g a)) l = Ok (map g l).
Proof.
  induction l as [|a t IH]; [reflexivity|].
  cbn [mapM rbind map]. now rewrite IH.
Qed.

Lemma mapM_ext (f g : A -> result B) (l : list A) :
  (forall a, In a l -> f a = g a) -> mapM f l = mapM g l.
Proof.
  induction l as [|a t IH]; intros H; [reflexivity|].
  cbn [mapM]. rewrite (H a (or_introl eq_refl)).
  rewrite IH; [reflexivity|]. intros b Hb. apply H. now right.
Qed.

Lemma mapM_raises (f : A -> result B) (l : list A) (a : A) (e : exn) :
  In a l -> f a = Raise e -> exists e', mapM f l = Raise e'.
Proof.
  intros Hin Hf. induction l as [|x t IH]; [contradiction|].
  cbn [mapM]. destruct (f x) as [b|e0] eqn:Hx; [|cbn; eauto].
  destruct Hin as [->|Hin]; [congruence|].
  destruct (IH Hin) as [e' ->]. cbn. eauto.
Qed.

End MapMFacts.

Lemma mapM_index (A B : Type) (g : A -> result B) (pre l : list A) :
  mapM (fun i => rbind (py_index (pre ++ l) i) g)
    (seq (List.length pre) (List.length l))
  = mapM g l.
Proof.
  revert pre. induction l as [|a t IH]; intros pre; [reflexivity|].
  cbn [List.length seq mapM]. unfold py_index at 1.
  rewrite nth_error_app2, Nat.sub_diag by apply Nat.le_refl. cbn [nth_error rbind].
  specialize (IH (pre ++ [a])). rewrite <- app_assoc in IH. cbn [app] in IH.
  rewrite length_app in IH. cbn [List.length] in IH.
  rewrite Nat.add_1_r in IH. now rewrite IH.
Qed.

Section RetrievalTrace.

Variable W : Type.
Variable encode : list string -> W -> result (list vec) * W.
Variable collection_query : vec -> Z -> W -> result query_result * W.

Local Abbreviation retrieve := (retrieve_relevant_chunks encode collection_query).
Local Abbreviation lookup := (get_relevant_context encode collection_query).

Lemma encode_batches_calls (bs : list (list string)) (st : rag W) :
  exists k,
    calls (snd (encode_batches encode bs st))
    = calls st ++ map EvEncode (firstn k bs).
Proof.
  revert st. induction bs as [|b bs IH]; intros st.
  - exists 0. cbn. now rewrite app_nil_r.
  - cbn [encode_batches]. unfold bind, call_encode, service.
    destruct (encode b (world st)) as [[emb|e] w1].
    + set (st1 := mk_rag (query_cache st) w1 (calls st ++ [EvEncode b])).
      destruct (IH st1) as [k Hk]. exists (S k).
      destruct (encode_batches encode bs st1) as [[more|e] st2];
        cbn [snd ret] in *; rewrite Hk; unfold st1; cbn [calls];
        now rewrite <- app_assoc.
    + exists 1. cbn [snd calls]. now rewrite firstn_cons, firstn_O.
Qed.

Lemma rerank_calls (qe : vec) (built : list chunk) (st : rag W) :
  exists bs,
    calls (snd (rerank encode qe built st)) = calls st ++ map EvEncode bs.
Proof.
  destruct built as [|c built].
  - exists []. cbn. now rewrite app_nil_r.
  - rewrite rerank_nonempty by discriminate. unfold bind, lift, ret.
    destruct (encode_batches_calls (batches 64 (map c_text (c :: built))) st)
      as [k Hk].
    exists (firstn k (batches 64 (map c_text (c :: built)))).
    destruct (encode_batches encode _ st) as [[ce|e] st1]; cbn [snd] in *;
      [|exact Hk].
    destruct (mapM _ _); exact Hk.
Qed.

(** X7: a retrieval only looks things up.  Whatever the services answer,
    [retrieve_relevant_chunks] first embeds the query, alone; it asks the
    index at most once, passing the caller's [n_results] on unchanged, and
    after that only embeds texts.  It never touches the query cache, and
    [get_relevant_context] makes these same calls, or none at all. *)
Theorem retrieval_only_looks_up (q : string) (n : Z) (st : rag W) :
  (exists evs,
     calls (snd (retrieve q n st)) = calls st ++ evs /\
     retrieval_calls q n evs) /\
  query_cache (snd (retrieve q n st)) = query_cache st /\
  (exists evs,
     calls (snd (lookup q n st)) = calls st ++ evs /\
     (evs = [] \/ retrieval_calls q n evs)).
Proof.
  assert (Hr : exists evs,
             calls (snd (retrieve q n st)) = calls st ++ evs /\
             retrieval_calls q n evs).
  { unfold retrieve_relevant_chunks, try_except, retrieve_body, bind, lift,
      call_encode, call_query, service, retrieval_calls.
    destruct (encode [q] (world st)) as [[embs|e] w1];
      [|exists [EvEncode [q]]; cbn; eauto].
    destruct (py_index embs 0) as [qe|e];
      [|exists [EvEncode [q]]; cbn; eauto].
    cbn [world calls query_cache].
    destruct (collection_query qe n w1) as [[r|e] w2];
      [|exists [EvEncode [q]; EvQuery qe n]; cbn [snd calls];
        rewrite <- app_assoc; split; [reflexivity|];
        exists [EvQuery qe n]; split; [reflexivity|]; right;
        now exists qe, []].
    set (st2 := mk_rag (query_cache st) w2
                  ((calls st ++ [EvEncode [q]]) ++ [EvQuery qe n])).
    assert (Hst2 : calls st2 = calls st ++ [EvEncode [q]; EvQuery qe n])
      by (unfold st2; cbn [calls]; now rewrite <- app_assoc).
    destruct (build_chunks r) as [built|e];
      [|exists [EvEncode [q]; EvQuery qe n]; cbn [snd];
        split; [exact Hst2|];
        exists [EvQuery qe n]; split; [reflexivity|]; right;
        now exists qe, []].
    destruct (rerank_calls qe built st2) as [bs Hbs].
    exists ([EvEncode [q]; EvQuery qe n] ++ map EvEncode bs). split.
    - destruct (rerank encode qe built st2) as [[cs|e] st3]; cbn [snd] in *;
        now rewrite Hbs, Hst2, <- app_assoc.
    - exists (EvQuery qe n :: map EvEncode bs). split; [reflexivity|].
      right. now exists qe, bs. }
  split; [exact Hr|]. split; [apply (keeps_retrieve W encode collection_query)|].
  destruct (od_get q (query_cache st)) as [v|] eqn:Hget.
  - exists []. rewrite (lookup_hit W encode collection_query q n st v Hget).
    cbn [snd calls]. rewrite app_nil_r. auto.
  - destruct (lookup_miss W encode collection_query q n st Hget)
      as (chunks & st1 & Hret & _ & Hl).
    cbv zeta in Hl. rewrite Hl. cbn [snd calls].
    destruct Hr as (evs & Hc & Hshape). rewrite Hret in Hc. cbn [snd] in Hc.
    exists evs. auto.
Qed.

End RetrievalTrace.

(** ** The answers of a retrieval *)

Lemma build_chunks_no_documents (r : query_result) :
  no_documents r = true -> build_chunks r = Ok [].
Proof.
  unfold no_documents, build_chunks.
  destruct (documents r) as [[|[|d docs] rest]|]; try reflexivity.
  discriminate.
Qed.

Lemma attach_scores_map (g : chunk -> float) (built : list chunk) :
  attach_scores built (map g built) = map (fun c => set_score c (g c)) built.
Proof.
  unfold attach_scores. induction built as [|c t IH]; [reflexivity|].
  cbn [map combine fst snd]. now rewrite IH.
Qed.

Section RetrievalCases.

Variable W : Type.
Variable encode : list string -> W -> result (list vec) * W.
Variable collection_query : vec -> Z -> W -> result query_result * W.

Local Abbreviation retrieve := (retrieve_relevant_chunks encode collection_query).
Local Abbreviation lookup := (get_relevant_context encode collection_query).

(** The retrieval up to the rerank, when the model and the index answer. *)
Lemma retrieve_to_rerank
  (q : string) (n : Z) (st : rag W) (qe : vec) (more : list vec) (w1 w2 : W)
  (r : query_result) (built : list chunk) :
  encode [q] (world st) = (Ok (qe :: more), w1) ->
  collection_query qe n w1 = (Ok r, w2) ->
  build_chunks r = Ok built ->
  retrieve q n st
  = try_except
      (rerank encode qe built) []
      (mk_rag (query_cache st) w2 (calls st ++ [EvEncode [q]; EvQuery qe n])).
Proof.
  intros He Hq Hb.
  unfold retrieve_relevant_chunks, try_except, retrieve_body, bind, lift,
    call_encode, call_query, service.
  rewrite He. cbn [py_index nth_error world calls query_cache].
  rewrite Hq, Hb. now rewrite <- app_assoc.
Qed.

(** X8: an index that has nothing to offer costs two calls.  When the
    answer of the index holds no documents, [retrieve_relevant_chunks]
    returns the empty list after embedding the query and asking the index
    once: the metadata and the distances of the answer are not looked at,
    nothing is embedded again, and [get_relevant_context] answers a query
    it has not cached with the no-context sentence. *)
Theorem empty_answer_gives_no_context
  (q : string) (n : Z) (st : rag W) (qe : vec) (more : list vec) (w1 w2 : W)
  (r : query_result) :
  encode [q] (world st) = (Ok (qe :: more), w1) ->
  collection_query qe n w1 = (Ok r, w2) ->
  no_documents r = true ->
  retrieve q n st
  = (Ok [], mk_rag (query_cache st) w2
              (calls st ++ [EvEncode [q]; EvQuery qe n])) /\
  (od_get q (query_cache st) = None ->
   fst (lookup q n st) = Ok no_context /\
   calls (snd (lookup q n st)) = calls st ++ [EvEncode [q]; EvQuery qe n]).
Proof.
  intros He Hq Hr.
  assert (Hret : retrieve q n st
                 = (Ok [], mk_rag (query_cache st) w2
                             (calls st ++ [EvEncode [q]; EvQuery qe n]))).
  { rewrite (retrieve_to_rerank q n st qe more w1 w2 r [] He Hq
               (build_chunks_no_documents r Hr)).
    reflexivity. }
  split; [exact Hret|]. intros Hmiss.
  destruct (lookup_miss W encode collection_query q n st Hmiss)
    as (chunks & st1 & Hret' & _ & Hl).
  rewrite Hret in Hret'. injection Hret' as <- <-.
  cbv zeta in Hl. rewrite Hl. split; reflexivity.
Qed.

(** X9: a model that hands back fewer vectors than it was given texts makes
    the retrieval come back empty.  The score of a candidate without a
    vector is an [IndexError]; it is caught with every other exception, and
    the candidates that did get a vector are dropped with it. *)
Theorem short_embeddings_give_nothing
  (q : string) (n : Z) (st : rag W) (qe : vec) (more : list vec) (w1 w2 : W)
  (r : query_result) (built : list chunk)
  (chunk_embeds : list vec) (st3 : rag W) :
  encode [q] (world st) = (Ok (qe :: more), w1) ->
  collection_query qe n w1 = (Ok r, w2) ->
  build_chunks r = Ok built ->
  encode_batches encode (batches 64 (map c_text built))
    (mk_rag (query_cache st) w2 (calls st ++ [EvEncode [q]; EvQuery qe n]))
  = (Ok chunk_embeds, st3) ->
  List.length chunk_embeds < List.length built ->
  retrieve q n st = (Ok [], st3).
Proof.
  intros He Hq Hb Henc Hlen.
  rewrite (retrieve_to_rerank q n st qe more w1 w2 r built He Hq Hb).
  unfold try_except. rewrite rerank_nonempty
    by (intros ->; cbn in Hlen; lia).
  unfold bind, lift. rewrite Henc.
  destruct (mapM_raises nat float
              (fun i => rbind (py_index chunk_embeds i) (fun e => cosine e qe))
              (seq 0 (List.length built)) (List.length chunk_embeds) IndexError)
    as [e' ->]; [| |reflexivity].
  - apply in_seq. lia.
  - unfold py_index.
    now rewrite (proj2 (nth_error_None chunk_embeds _) (Nat.le_refl _)).
Qed.

Variable f : string -> vec.
Hypothesis Hf : embeds_with encode f.

(** X10: with the model up and no score a NaN, the candidates of the
    index's answer all come back, each scored by the cosine of its own
    embedded text against the embedded query and the list sorted by that
    score, the highest first and equal scores in the order of the answer.
    The score of a candidate depends on its text and the query alone, not
    on its rank in the answer or on the sub-batch it was embedded in; the
    model is called once for the query and once for every 64 candidates. *)
Theorem healthy_retrieval_scores_every_candidate
  (q : string) (n : Z) (st : rag W) (w1 w2 : W)
  (r : query_result) (built : list chunk) :
  encode [q] (world st) = (Ok [f q], w1) ->
  collection_query (f q) n w1 = (Ok r, w2) ->
  build_chunks r = Ok built ->
  Forall (fun c => is_nan (cosine_float (f (c_text c)) (f q)) = false) built ->
  exists w3,
    retrieve q n st
    = (Ok (sort_desc sort_key (map (scored f q) built)),
       mk_rag (query_cache st) w3
         (calls st ++ [EvEncode [q]; EvQuery (f q) n]
            ++ map EvEncode (batches 64 (map c_text built)))) /\
    Permutation (map c_text (sort_desc sort_key (map (scored f q) built)))
      (map c_text built) /\
    descending (map sort_key (sort_desc sort_key (map (scored f q) built))).
Proof.
  intros He Hq Hb Hnan.
  rewrite (retrieve_to_rerank q n st (f q) [] w1 w2 r built He Hq Hb).
  set (st2 := mk_rag (query_cache st) w2
                (calls st ++ [EvEncode [q]; EvQuery (f q) n])).
  assert (Hperm :
            Permutation (map c_text (sort_desc sort_key (map (scored f q) built)))
              (map c_text built)).
  { rewrite (Permutation_map c_text
               (sort_desc_perm chunk sort_key (map (scored f q) built))).
    rewrite map_map. apply Permutation_refl. }
  assert (Hdesc :
            descending
              (map sort_key (sort_desc sort_key (map (scored f q) built)))).
  { apply sort_desc_descending. apply Forall_map.
    eapply Forall_impl; [|exact Hnan]. intros c Hc. exact Hc. }
  destruct built as [|c built'].
  - exists w2. split; [reflexivity | split; [exact Hperm | exact Hdesc]].
  - set (built := c :: built') in *.
    destruct (encode_batches_pointwise W encode f Hf
                (batches 64 (map c_text built)) st2) as [w3 Henc].
    rewrite (batches_concat string 64 (Nat.lt_0_succ _)) in Henc.
    exists w3. split; [|split; [exact Hperm | exact Hdesc]].
    unfold try_except. rewrite rerank_nonempty by discriminate.
    unfold bind, lift, ret. rewrite Henc.
    rewrite <- (length_map c_text built), <- (length_map f (map c_text built)).
    pose proof (mapM_index vec float (fun e => cosine e (f q)) []
                  (map f (map c_text built))) as Hm.
    change ([] ++ map f (map c_text built))
      with (map f (map c_text built)) in Hm.
    change (List.length (@nil vec)) with 0 in Hm.
    rewrite Hm. clear Hm.
    rewrite (mapM_ext vec float (fun e => cosine e (f q))
               (fun e => Ok (cosine_float e (f q))))
      by (intros a _; apply cosine_value).
    rewrite mapM_total, !map_map.
    rewrite (attach_scores_map (fun c => cosine_float (f (c_text c)) (f q))).
    unfold st2. cbn [calls query_cache]. now rewrite <- app_assoc.
Qed.

End RetrievalCases.

(** ** Asking the same query again *)




Section RepeatedQuery.

Variable W : Type.
Variable encode : list string -> W -> result (list vec) * W.
Variable collection_query : vec -> Z -> W -> result query_result * W.

Local Abbreviation lookup := (get_relevant_context encode collection_query).



End RepeatedQuery.

(** ** Construction *)

Section ConstructionProperties.

Variable W : Type.
Variable encode : list string -> W -> result (list vec) * W.
Variable collection_count : W -> result Z * W.
Variable collection_add : list vec -> list item -> W -> result unit * W.
Variable path_exists : W -> bool.
Variable pdf_pages : W -> result (list (option string)) * W.
Variable split_text : string -> list string.
Variable pdf_path : string.
Variable get_collection : W -> result unit * W.
Variable create_collection : W -> result unit * W.
Variable is_exception : exn -> bool.

Local Abbreviation ingest :=
  (process_pdf encode collection_count collection_add path_exists pdf_pages
     split_text pdf_path).
Local Abbreviation ingest_if_present :=
  (process_pdf_if_present encode collection_count collection_add path_exists
     pdf_pages split_text pdf_path).
Local Abbreviation populate :=
  (populate_if_empty encode collection_count collection_add path_exists
     pdf_pages split_text pdf_path).
Local Abbreviation initialize :=
  (_initialize_collection encode collection_count collection_add path_exists
     pdf_pages split_text pdf_path get_collection create_collection
     is_exception).
Local Abbreviation construct :=
  (__init__ encode collection_count collection_add path_exists
     pdf_pages split_text pdf_path get_collection create_collection
     is_exception).

Create HintDb ingestion.

#[local] Hint Resolve keeps_ret keeps_lift keeps_service keeps_bind
  keeps_try_except keeps_encode_batches : ingestion.

Lemma keeps_add_batches (bs : list (list item)) :
  keeps_cache (add_batches encode collection_add bs).
Proof.
  induction bs as [|b bs IH]; cbn [add_batches]; unfold add_batch;
    auto 8 with ingestion.
Qed.

Lemma keeps_process_pdf : keeps_cache ingest.
Proof.
  unfold process_pdf, extract_text_from_pdf. apply keeps_bind.
  - apply keeps_service.
  - intros count. destruct (Z.ltb 0 count); [apply keeps_ret|].
    apply keeps_bind.
    + apply keeps_bind; [apply keeps_service|].
      intros found. destruct (negb found); [now intros st|].
      auto with ingestion.
    + intros text. apply keeps_bind; [apply keeps_add_batches|].
      intros _. apply keeps_ret.
Qed.

Lemma keeps_process_pdf_if_present : keeps_cache ingest_if_present.
Proof.
  unfold process_pdf_if_present. apply keeps_bind; [apply keeps_service|].
  intros found. destruct found; [|apply keeps_ret].
  apply keeps_bind; [apply keeps_process_pdf | intros _; apply keeps_ret].
Qed.

Lemma keeps_populate_if_empty : keeps_cache populate.
Proof.
  unfold populate_if_empty. apply keeps_bind; [apply keeps_service|].
  intros count. destruct (Z.eqb count 0);
    [apply keeps_process_pdf_if_present | apply keeps_ret].
Qed.

Lemma keeps_client_call (A : Type) (f : W -> result A * W) :
  keeps_cache (client_call f).
Proof. intros st. unfold client_call. now destruct (f (world st)). Qed.

Lemma keeps_try_except_exception (m : M W unit) :
  keeps_cache m -> keeps_cache (try_except_exception is_exception m).
Proof.
  intros Hm st. unfold try_except_exception. specialize (Hm st).
  destruct (m st) as [[a|e] st']; [exact Hm|].
  now destruct (is_exception e).
Qed.

Lemma keeps_try_bare (m handler : M W unit) :
  keeps_cache m -> keeps_cache handler -> keeps_cache (try_bare m handler).
Proof.
  intros Hm Hh st. unfold try_bare. specialize (Hm st).
  destruct (m st) as [[a|e] st']; [exact Hm|].
  cbn [snd] in Hm. now rewrite Hh.
Qed.

Lemma keeps_initialize : keeps_cache initialize.
Proof.
  unfold _initialize_collection. apply keeps_try_bare.
  - apply keeps_bind; [apply keeps_client_call|]. intros _.
    apply keeps_try_except_exception, keeps_populate_if_empty.
  - apply keeps_bind; [apply keeps_client_call|]. intros _.
    apply keeps_process_pdf_if_present.
Qed.

(** X12: over a collection that already exists the constructor swallows
    the [Exception]s of the first ingestion, and only those.  The query
    cache is empty afterwards in every case.  When the check of the count
    and the ingestion return or raise an [Exception], [__init__] returns,
    in the state they left.  When they raise an error that is not an
    [Exception], the inner handler lets it pass and the bare [except]
    catches it: the collection is created over the one that exists and the
    PDF is ingested with no handler around, so that [__init__] ends as that
    does.  When the collection reports a count other than zero, the count
    is the only call made: the PDF is not even looked for. *)
Theorem existing_collection_swallows_exceptions (w w1 : W) :
  get_collection w = (Ok tt, w1) ->
  let constructed :=
    __init__ encode collection_count collection_add path_exists pdf_pages
      split_text pdf_path get_collection create_collection is_exception w in
  let populated :=
    populate_if_empty encode collection_count collection_add path_exists
      pdf_pages split_text pdf_path (mk_rag [] w1 []) in
  query_cache (snd constructed) = [] /\
  ((forall e, fst populated = Raise e -> is_exception e = true) ->
   constructed = (Ok tt, snd populated)) /\
  (forall e,
     fst populated = Raise e -> is_exception e = false ->
     constructed
     = bind (client_call create_collection)
         (fun _ =>
            process_pdf_if_present encode collection_count collection_add
              path_exists pdf_pages split_text pdf_path)
         (snd populated)) /\
  (forall count w2,
     collection_count w1 = (Ok count, w2) -> count <> 0%Z ->
     constructed = (Ok tt, mk_rag [] w2 [EvCount])).
Proof.
  intros Hget. cbv zeta.
  assert (Hrun : construct w
                 = try_bare (try_except_exception is_exception populate)
                     (bind (client_call create_collection)
                        (fun _ => ingest_if_present))
                     (mk_rag [] w1 [])).
  { unfold __init__, _initialize_collection, try_bare, bind at 1.
    unfold client_call at 1. cbn [world query_cache calls].
    now rewrite Hget. }
  split; [apply (keeps_initialize (mk_rag [] w []))|].
  rewrite Hrun. unfold try_bare, try_except_exception.
  split; [|split].
  - intros Hclass.
    destruct (populate (mk_rag [] w1 [])) as [[[]|e] st'] eqn:Hp;
      cbn [fst snd] in *; [reflexivity|].
    now rewrite (Hclass e eq_refl).
  - intros e He Hclass.
    destruct (populate (mk_rag [] w1 [])) as [[[]|e'] st'] eqn:Hp;
      cbn [fst snd] in *; [discriminate|].
    injection He as ->. now rewrite Hclass.
  - intros count w2 Hcount Hne.
    unfold populate_if_empty, bind, service. cbn [world query_cache calls].
    rewrite Hcount. apply Z.eqb_neq in Hne. now rewrite Hne.
Qed.

(** X13: over a collection that had to be created the constructor is not
    protected.  Without the PDF it returns with an empty collection; with
    the PDF in place it ingests it, and whatever ingestion raises is raised
    by [__init__]: the object is not constructed, while the same failure
    over an existing collection would have been swallowed. *)
Theorem new_collection_ingestion_is_unguarded
  (w w1 w2 : W) (e0 : exn) :
  get_collection w = (Raise e0, w1) ->
  create_collection w1 = (Ok tt, w2) ->
  (path_exists w2 = false ->
   construct w = (Ok tt, mk_rag [] w2 [EvPathExists])) /\
  (path_exists w2 = true ->
   forall e st',
     ingest (mk_rag [] w2 [EvPathExists]) = (Raise e, st') ->
     construct w = (Raise e, st')) /\
  (path_exists w2 = true ->
   forall v st',
     ingest (mk_rag [] w2 [EvPathExists]) = (Ok v, st') ->
     construct w = (Ok tt, st')).
Proof.
  intros Hget Hcreate.
  assert (Hrun : construct w = ingest_if_present (mk_rag [] w2 [])).
  { unfold __init__, _initialize_collection, try_bare, bind at 1.
    unfold client_call at 1. cbn [world query_cache calls]. rewrite Hget.
    unfold bind, client_call. cbn [world query_cache calls].
    now rewrite Hcreate. }
  rewrite Hrun. unfold process_pdf_if_present, bind, service.
  cbn [world query_cache calls app]. split; [|split].
  - intros ->. reflexivity.
  - intros -> e st' ->. reflexivity.
  - intros -> v st' ->. reflexivity.
Qed.

End ConstructionProperties.

(** ** The fields of a retrieved chunk *)

Section RetrievedFields.

Variable W : Type.
Variable encode : list string -> W -> result (list vec) * W.
Variable collection_query : vec -> Z -> W -> result query_result * W.

Local Abbreviation retrieve := (retrieve_relevant_chunks encode collection_query).
Local Abbreviation lookup := (get_relevant_context encode collection_query).

(** X14: a chunk that [retrieve_relevant_chunks] returns has every field
    set: a source, a chunk identifier and a score.  So the fall-back values
    of its readers are never used on such a chunk: the sort key is the
    score, not [0.0], and the citation tag names the chunk's source, not
    ['Nephrology Reference']. *)
Theorem retrieved_chunks_have_every_field
  (q : string) (n : Z) (st st' : rag W) (cs : list chunk) :
  retrieve q n st = (Ok cs, st') ->
  Forall (fun c =>
    exists src cid sc,
      c_source c = Some src /\ c_chunk_id c = Some cid /\
      c_score c = Some sc /\ sort_key c = sc /\
      forall k, format_entry (k, c)
                = "[Source " ^^ str_of_nat k ^^ ": " ^^ src ^^ "]" ^^ nl
                    ^^ c_text c ^^ nl ^^ nl) cs.
Proof.
  intros Hret. apply Forall_forall. intros c Hin.
  destruct (retrieve_inv W encode collection_query q n st st' cs Hret)
    as [->|(embs & qe & st1 & r & st2 & built & _ & _ & _ & Hb & Hr)];
    [contradiction|].
  destruct (rerank_inv W encode qe built cs st2 st' Hr) as (scores & _ & ->).
  apply (Permutation_in _ (sort_desc_perm chunk sort_key _)) in Hin.
  destruct (attach_scores_nth built scores c Hin) as (i & b & s & Hbi & _ & ->).
  destruct (build_chunks_inv r built Hb)
    as [->|(docs & rest & m0 & restm & _ & _ & _ & Hcand)];
    [now destruct i|].
  destruct (Hcand i b Hbi) as (doc & md & _ & _ & ->).
  exists (get_default (md_source md) "Unknown"),
         (get_default (md_chunk_id md) "Unknown"), s.
  repeat split.
Qed.

(** X15: the no-context sentence stands for an empty retrieval and for
    nothing else.  [format_context_for_llm] returns it exactly when it is
    given no chunks, so [get_relevant_context] answers a query it has not
    cached with that sentence exactly when the retrieval came back empty. *)
Theorem no_context_iff_nothing_retrieved
  (chunks : list chunk) (q : string) (n : Z) (st : rag W) :
  (format_context_for_llm chunks = no_context <-> chunks = []) /\
  (od_get q (query_cache st) = None ->
   (fst (lookup q n st) = Ok no_context <-> fst (retrieve q n st) = Ok [])).
Proof.
  assert (Hfmt : forall cs, format_context_for_llm cs = no_context <-> cs = []).
  { intros cs. split; [|now intros ->].
    destruct cs as [|c cs]; [reflexivity|].
    unfold format_context_for_llm. rewrite fold_entries. discriminate. }
  split; [apply Hfmt|]. intros Hmiss.
  destruct (lookup_miss W encode collection_query q n st Hmiss)
    as (cs & st1 & Hret & _ & Hl).
  cbv zeta in Hl. rewrite Hl, Hret. cbn [fst]. split.
  - intros [= H]. apply Hfmt in H. now rewrite H.
  - intros [= ->]. reflexivity.
Qed.

End RetrievedFields.

(** ** From ingestion to retrieval *)

(** X16: what ingestion writes into the metadata is what retrieval reads
    back.  When the index answers with the metadata of an item that
    [process_pdf] prepared, the chunk built from it names the file name of
    the PDF as its source and the item's position among the segments as its
    chunk identifier; the ['Unknown'] fall-backs do not show. *)
Theorem ingested_metadata_is_read_back
  (split_text : string -> list string) (pdf_path text : string)
  (j : nat) (it : item) (r : query_result) (i : nat) (doc : string)
  (m0 : list (option metadata)) (rest : list (list (option metadata)))
  (c : chunk) :
  nth_error (map item_of_chunk (chunk_text split_text pdf_path text)) j = Some it ->
  metadatas r = Some (m0 :: rest) ->
  nth_error m0 i = Some (Some (it_meta it)) ->
  build_chunk r (i, doc) = Ok c ->
  c_text c = doc /\
  c_source c = Some (basename pdf_path) /\
  c_chunk_id c = Some (str_of_nat j) /\
  it_id it = "chunk_" ^^ str_of_nat j.
Proof.
  intros Hit Hm Hi Hc.
  destruct (nth_error_items split_text pdf_path text j it Hit) as (seg & _ & ->).
  destruct (build_chunk_inv r i doc c Hc) as (m0' & rest' & md & Hm' & Hi' & ->).
  rewrite Hm in Hm'. injection Hm' as <- <-.
  rewrite Hi in Hi'. injection Hi' as <-.
  repeat split.
Qed.

(** ** Answers the candidates cannot be built from *)

Lemma mapM_Ok_each (A B : Type) (f : A -> result B) (l : list A) (out : list B) :
  mapM f l = Ok out -> forall a, In a l -> exists b, f a = Ok b.
Proof.
  revert out. induction l as [|x t IH]; intros out H a Hin; [contradiction|].
  cbn [mapM] in H. destruct (f x) as [b|e] eqn:Hx; [|discriminate].
  cbn [rbind] in H. destruct (mapM f t) as [bs|e]; [|discriminate].
  destruct Hin as [<-|Hin]; [eauto | eapply IH; eauto].
Qed.

Lemma build_chunk_distance (r : query_result) (i : nat) (doc : string) (c : chunk) :
  build_chunk r (i, doc) = Ok c ->
  match distances r with
  | Some (ds :: _) => i < List.length ds
  | _ => True
  end.
Proof.
  unfold build_chunk. cbn [fst snd].
  destruct (metadatas r) as [[|m0 rest]|]; try discriminate. cbn.
  destruct (py_index m0 i) as [[md|]|e]; try discriminate. cbn.
  destruct (distances r) as [[|ds dss]|]; cbn; trivial.
  destruct (py_index ds i) as [d|e] eqn:Hd; cbn; [|discriminate].
  intros _. apply py_index_Ok in Hd. apply nth_error_Some. congruence.
Qed.

Lemma build_chunks_complete (r : query_result) :
  (exists built, build_chunks r = Ok built) <-> complete_answer r = true.
Proof.
  unfold build_chunks, complete_answer.
  destruct (documents r) as [[|[|d docs] rest]|];
    try (split; [reflexivity | intros _; cbn; eexists; reflexivity]).
  set (all := d :: docs).
  change (S (List.length docs)) with (List.length all).
  change (Nat.ltb 0 (List.length all)) with true. cbv iota.
  split.
  - intros [built H].
    assert (Heach : forall i doc, nth_error all i = Some doc ->
                                  exists c, build_chunk r (i, doc) = Ok c).
    { intros i doc Hi. apply (mapM_Ok_each _ _ _ _ _ H).
      apply (nth_error_In _ i). rewrite nth_error_enumerate, Hi. reflexivity. }
    destruct (Heach 0 d eq_refl) as [c0 Hc0].
    destruct (build_chunk_inv r 0 d c0 Hc0) as (m0 & restm & _ & Hm & _ & _).
    rewrite Hm. apply andb_true_intro. split.
    + apply forallb_forall. intros i Hi. apply in_seq in Hi.
      destruct (nth_error all i) as [doc|] eqn:Hd;
        [|apply nth_error_None in Hd; lia].
      destruct (Heach i doc Hd) as [c Hc].
      destruct (build_chunk_inv r i doc c Hc) as (m0' & restm' & md & Hm' & Hi' & _).
      rewrite Hm in Hm'. injection Hm' as <- <-. now rewrite Hi'.
    + destruct (distances r) as [[|ds dss]|] eqn:Hds; trivial.
      apply Nat.leb_le.
      destruct (nth_error all (List.length docs)) as [doc|] eqn:Hd;
        [|apply nth_error_None in Hd; cbn in Hd; lia].
      destruct (Heach _ doc Hd) as [c Hc].
      apply build_chunk_distance in Hc. rewrite Hds in Hc. exact Hc.
  - destruct (metadatas r) as [[|m0 restm]|] eqn:Hm; try discriminate.
    intros H. apply andb_prop in H. destruct H as [Hmd Hds].
    apply mapM_ok. intros [i doc] Hin.
    apply In_enumerate in Hin. destruct Hin as [k [Hk Hi]].
    cbn [fst snd] in *. subst i. cbn [Nat.add].
    assert (Hlt : k < List.length all)
      by (apply nth_error_Some; congruence).
    rewrite forallb_forall in Hmd. specialize (Hmd k).
    destruct (nth_error m0 k) as [[md|]|] eqn:Hmk;
      try (discriminate Hmd; apply in_seq; lia).
    exists (candidate r k doc md).
    apply (build_chunk_ok r k doc m0 restm md Hm Hmk).
    destruct (distances r) as [[|ds dss]|]; trivial.
    apply Nat.leb_le in Hds. lia.
Qed.

Section IncompleteAnswers.

Variable W : Type.
Variable encode : list string -> W -> result (list vec) * W.
Variable collection_query : vec -> Z -> W -> result query_result * W.

Local Abbreviation retrieve := (retrieve_relevant_chunks encode collection_query).

(** X17: the candidates are built all together or not at all.  They can be
    built exactly from an answer in which every document of the first list
    has a metadata dictionary and, if distances are given, a distance.  On
    any other answer, be it a single document short of its metadata,
    [retrieve_relevant_chunks] returns the empty list without embedding
    anything again: the documents that were complete are lost with it. *)
Theorem incomplete_answer_gives_nothing
  (q : string) (n : Z) (st : rag W) (qe : vec) (more : list vec) (w1 w2 : W)
  (r : query_result) :
  encode [q] (world st) = (Ok (qe :: more), w1) ->
  collection_query qe n w1 = (Ok r, w2) ->
  ((exists built, build_chunks r = Ok built) <-> complete_answer r = true) /\
  (complete_answer r = false ->
   retrieve q n st
   = (Ok [], mk_rag (query_cache st) w2
               (calls st ++ [EvEncode [q]; EvQuery qe n]))).
Proof.
  intros He Hq. split; [apply build_chunks_complete|]. intros Hinc.
  destruct (build_chunks r) as [built|e] eqn:Hb.
  - assert (Hc : complete_answer r = true)
      by (apply build_chunks_complete; rewrite Hb; eauto).
    congruence.
  - unfold retrieve_relevant_chunks, try_except, retrieve_body, bind, lift,
      call_encode, call_query, service.
    rewrite He. cbn [py_index nth_error world calls query_cache].
    rewrite Hq, Hb. now rewrite <- app_assoc.
Qed.

End IncompleteAnswers.

(** ** Candidates with a metadata field missing *)

Lemma mapM_index_within (A B : Type) (g : A -> result B)
      (pre l suf : list A) :
  mapM (fun i => rbind (py_index (pre ++ l ++ suf) i) g)
    (seq (List.length pre) (List.length l))
  = mapM g l.
Proof.
  revert pre. induction l as [|a t IH]; intros pre; [reflexivity|].
  cbn [List.length seq mapM]. unfold py_index at 1.
  rewrite nth_error_app2, Nat.sub_diag by apply Nat.le_refl.
  cbn [app nth_error rbind].
  specialize (IH (pre ++ [a])). rewrite <- app_assoc in IH. cbn [app] in IH.
  rewrite length_app in IH. cbn [List.length] in IH.
  rewrite Nat.add_1_r in IH. now rewrite IH.
Qed.

Lemma mapM_index_firstn (A B : Type) (g : A -> result B) (l : list A) (n : nat) :
  n <= List.length l ->
  mapM (fun i => rbind (py_index l i) g) (seq 0 n) = mapM g (firstn n l).
Proof.
  intros Hn.
  pose proof (mapM_index_within A B g [] (firstn n l) (skipn n l)) as H.
  cbn [app List.length] in H. rewrite firstn_skipn in H.
  rewrite length_firstn, Nat.min_l in H by exact Hn. exact H.
Qed.

Lemma attach_scores_In (built : list chunk) (scores : list float)
      (i : nat) (b : chunk) (s : float) :
  nth_error built i = Some b -> nth_error scores i = Some s ->
  In (set_score b s) (attach_scores built scores).
Proof.
  unfold attach_scores. revert scores i.
  induction built as [|c t IH]; intros [|s0 ss] [|i] Hb Hs;
    try discriminate; cbn in *.
  - injection Hb as <-. injection Hs as <-. now left.
  - right. now apply (IH ss i).
Qed.

Lemma attach_scores_texts (built : list chunk) (scores : list float) :
  List.length scores = List.length built ->
  map c_text (attach_scores built scores) = map c_text built.
Proof.
  unfold attach_scores. revert scores.
  induction built as [|c t IH]; intros [|s ss] H; try discriminate;
    [reflexivity|].
  cbn. f_equal. apply IH. now injection H.
Qed.

Lemma build_chunks_candidates
      (r : query_result) (docs : list string) (rest : list (list string))
      (m0 : list (option metadata)) (restm : list (list (option metadata)))
      (built : list chunk) :
  documents r = Some (docs :: rest) ->
  metadatas r = Some (m0 :: restm) ->
  build_chunks r = Ok built ->
  List.length built = List.length docs /\
  map c_text built = docs /\
  forall i doc md,
    nth_error docs i = Some doc -> nth_error m0 i = Some (Some md) ->
    nth_error built i = Some (candidate r i doc md).
Proof.
  intros Hd Hm Hb.
  assert (Hlen : List.length built = List.length docs).
  { unfold build_chunks in Hb. rewrite Hd in Hb.
    destruct (Nat.ltb_spec 0 (List.length docs)) as [Hpos|Hz].
    - apply mapM_length in Hb. rewrite Hb.
      rewrite <- (length_map fst), enumerate_map_fst. apply length_seq.
    - injection Hb as <-. cbn. lia. }
  assert (Hnth : forall i c, nth_error built i = Some c ->
                 exists doc md, nth_error docs i = Some doc /\
                                nth_error m0 i = Some (Some md) /\
                                c = candidate r i doc md).
  { intros i c Hc.
    destruct (build_chunks_inv r built Hb)
      as [->|(docs' & rest' & m0' & restm' & Hd' & Hm' & _ & Hall)];
      [now destruct i|].
    rewrite Hd in Hd'. injection Hd' as <- <-.
    rewrite Hm in Hm'. injection Hm' as <- <-.
    exact (Hall i c Hc). }
  split; [exact Hlen|]. split.
  - apply nth_error_ext. intros i. rewrite nth_error_map.
    destruct (nth_error built i) as [c|] eqn:Hc; cbn.
    + destruct (Hnth i c Hc) as (doc & md & Hdoc & _ & ->). now rewrite Hdoc.
    + symmetry. apply nth_error_None. rewrite <- Hlen.
      now apply nth_error_None.
  - intros i doc md Hdoc Hmeta.
    destruct (nth_error built i) as [c|] eqn:Hc.
    + destruct (Hnth i c Hc) as (doc' & md' & Hdoc' & Hmeta' & ->).
      congruence.
    + apply nth_error_None in Hc.
      assert (i < List.length docs) by (apply nth_error_Some; congruence).
      lia.
Qed.

Section MissingMetadata.

Variable W : Type.
Variable encode : list string -> W -> result (list vec) * W.
Variable collection_query : vec -> Z -> W -> result query_result * W.

Local Abbreviation retrieve := (retrieve_relevant_chunks encode collection_query).

(** C10, as the code has it: when every candidate of the answer can be
    built and the model hands back a vector for each of them, the retrieval
    returns every candidate.  One whose metadata lacks [source] or
    [chunk_id] comes back like any other, with ["Unknown"] for the missing
    field; without distances in the answer its approximate distance is
    [None]; and its score is the cosine of its vector against the query's. *)
Theorem missing_metadata_defaults
  (q : string) (n : Z) (st : rag W) (qe : vec) (more : list vec) (w1 w2 : W)
  (r : query_result) (docs : list string) (rest : list (list string))
  (m0 : list (option metadata)) (restm : list (list (option metadata)))
  (chunk_embeds : list vec) (st3 : rag W) :
  encode [q] (world st) = (Ok (qe :: more), w1) ->
  collection_query qe n w1 = (Ok r, w2) ->
  documents r = Some (docs :: rest) ->
  metadatas r = Some (m0 :: restm) ->
  complete_answer r = true ->
  encode_batches encode (batches 64 docs)
    (mk_rag (query_cache st) w2 (calls st ++ [EvEncode [q]; EvQuery qe n]))
  = (Ok chunk_embeds, st3) ->
  List.length docs <= List.length chunk_embeds ->
  exists cs,
    retrieve q n st = (Ok cs, st3) /\
    Permutation (map c_text cs) docs /\
    forall i doc md,
      nth_error docs i = Some doc -> nth_error m0 i = Some (Some md) ->
      exists c e,
        In c cs /\
        c_text c = doc /\
        c_source c = Some (get_default (md_source md) "Unknown") /\
        c_chunk_id c = Some (get_default (md_chunk_id md) "Unknown") /\
        (md_source md = None -> c_source c = Some "Unknown") /\
        (md_chunk_id md = None -> c_chunk_id c = Some "Unknown") /\
        c_distance c = dist_at r i /\
        (truthy (distances r) = false -> c_distance c = None) /\
        nth_error chunk_embeds i = Some e /\
        c_score c = Some (cosine_float e qe).
Proof.
  intros He Hq Hd Hm Hcomplete Henc Hlen.
  destruct (proj2 (build_chunks_complete r) Hcomplete) as [built Hb].
  destruct (build_chunks_candidates r docs rest m0 restm built Hd Hm Hb)
    as (Hlenb & Htexts & Hcand).
  rewrite (retrieve_to_rerank W encode collection_query q n st qe more w1 w2
             r built He Hq Hb).
  unfold try_except.
  assert (Hne : built = [] \/ built <> [])
    by (destruct built; [left | right]; congruence).
  destruct Hne as [->|Hne].
  - cbn in Hlenb, Htexts. subst docs. cbn in Henc.
    injection Henc as <- <-. exists []. split; [reflexivity|].
    split; [constructor|]. intros [|i] doc md Hdoc; discriminate.
  - rewrite (rerank_nonempty W encode qe built Hne).
    unfold bind, lift, ret. rewrite Htexts, Henc, Hlenb.
    rewrite (mapM_index_firstn vec float (fun e => cosine e qe)
               chunk_embeds (List.length docs) Hlen).
    rewrite (mapM_ext vec float (fun e => cosine e qe)
               (fun e => Ok (cosine_float e qe)))
      by (intros a _; apply cosine_value).
    rewrite mapM_total.
    set (scores := map (fun e => cosine_float e qe)
                     (firstn (List.length docs) chunk_embeds)).
    assert (Hls : List.length scores = List.length built).
    { unfold scores. rewrite length_map, length_firstn. lia. }
    exists (sort_desc sort_key (attach_scores built scores)).
    split; [reflexivity|]. split.
    + rewrite (Permutation_map c_text
                 (sort_desc_perm chunk sort_key (attach_scores built scores))).
      rewrite (attach_scores_texts built scores Hls), Htexts.
      apply Permutation_refl.
    + intros i doc md Hdoc Hmeta.
      assert (Hi : i < List.length docs)
        by (apply nth_error_Some; congruence).
      destruct (nth_error chunk_embeds i) as [e|] eqn:He';
        [|apply nth_error_None in He'; lia].
      assert (Hs : nth_error scores i = Some (cosine_float e qe)).
      { unfold scores. rewrite nth_error_map, nth_error_firstn.
        apply Nat.ltb_lt in Hi. now rewrite Hi, He'. }
      exists (set_score (candidate r i doc md) (cosine_float e qe)), e.
      split.
      { apply (Permutation_in _
                 (Permutation_sym
                    (sort_desc_perm chunk sort_key (attach_scores built scores)))).
        apply (attach_scores_In built scores i); [|exact Hs].
        now apply Hcand. }
      cbn. repeat split; trivial.
      * now intros ->.
      * now intros ->.
      * unfold dist_at. now destruct (distances r) as [[|? ?]|].
Qed.

End MissingMetadata.

(** ** Ingestion when every service is up *)

Section HealthyIngestion.

Variable W : Type.
Variable encode : list string -> W -> result (list vec) * W.
Variable collection_count : W -> result Z * W.
Variable collection_add : list vec -> list item -> W -> result unit * W.
Variable path_exists : W -> bool.
Variable pdf_pages : W -> result (list (option string)) * W.
Variable split_text : string -> list string.
Variable pdf_path : string.

Variable f : string -> vec.
Hypothesis Hf : embeds_with encode f.
Hypothesis Hadd : accepts_all collection_add.

Local Abbreviation ingest :=
  (process_pdf encode collection_count collection_add path_exists pdf_pages
     split_text pdf_path).

Lemma add_batch_healthy (b : list item) (st : rag W) :
  exists w',
    add_batch encode collection_add b st
    = (Ok tt, mk_rag (query_cache st) w' (calls st ++ batch_events f b)).
Proof.
  unfold add_batch, bind, batch_events.
  destruct (encode_batches_pointwise W encode f Hf
              (batches 64 (map it_text b)) st) as [w1 ->].
  rewrite (batches_concat string 64 (Nat.lt_0_succ _)).
  unfold service. cbn [world calls query_cache].
  destruct (Hadd (map f (map it_text b)) b w1) as [w2 ->].
  exists w2. now rewrite <- app_assoc.
Qed.

Lemma add_batches_healthy (bs : list (list item)) (st : rag W) :
  exists w',
    add_batches encode collection_add bs st
    = (Ok tt,
       mk_rag (query_cache st) w' (calls st ++ flat_map (batch_events f) bs)).
Proof.
  revert st. induction bs as [|b bs IH]; intros st.
  - exists (world st). cbn. rewrite app_nil_r. now destruct st.
  - cbn [add_batches flat_map]. unfold bind.
    destruct (add_batch_healthy b st) as [w1 ->].
    destruct (IH (mk_rag (query_cache st) w1 (calls st ++ batch_events f b)))
      as [w2 ->].
    exists w2. cbn [query_cache calls]. now rewrite <- app_assoc.
Qed.

(** X18: with every service up, each chunk is stored with the embedding of
    its own text.  On a collection that reports no items, [process_pdf]
    reads the PDF once and then, for every batch of at most 1000 chunks,
    embeds the batch's texts 64 at a time and makes one [collection.add]
    whose embeddings are those of the batch's texts, in the order of its
    documents and identifiers; it makes no other call and returns [None]. *)
Theorem healthy_ingestion_stores_aligned_embeddings
  (st : rag W) (count : Z) (w1 w2 : W) (pages : list (option string)) :
  collection_count (world st) = (Ok count, w1) ->
  (count <= 0)%Z ->
  path_exists w1 = true ->
  pdf_pages w1 = (Ok pages, w2) ->
  let text := join (nl ^^ nl) (page_texts pages) in
  let items := map item_of_chunk (chunk_text split_text pdf_path text) in
  exists w3,
    ingest st
    = (Ok PyNone,
       mk_rag (query_cache st) w3
         (calls st ++ [EvCount; EvPathExists; EvPdfRead]
            ++ flat_map (batch_events f) (batches 1000 items))).
Proof.
  intros Hcount Hle Hpath Hpages text items.
  unfold process_pdf, bind, service at 1. rewrite Hcount.
  destruct (Z.ltb_spec 0 count) as [Hpos|_]; [lia|].
  unfold extract_text_from_pdf, bind, service.
  cbn beta iota zeta delta [world calls query_cache].
  rewrite Hpath. cbn beta iota zeta delta [negb world calls query_cache].
  rewrite Hpages. unfold ret. fold text. fold items.
  destruct (add_batches_healthy (batches 1000 items)
              (mk_rag (query_cache st) w2
                 (((calls st ++ [EvCount]) ++ [EvPathExists]) ++ [EvPdfRead])))
    as [w3 ->].
  exists w3. cbn [query_cache calls]. now rewrite <- !app_assoc.
Qed.

End HealthyIngestion.

(** * Worked examples for the further properties *)

Lemma demo_encode_embeds : embeds_with demo_encode demo_embed.
Proof. intros texts w. now exists w. Qed.

Lemma no_add_accepts_all : accepts_all no_add.
Proof. intros embeddings items w. now exists w. Qed.

(** Five elements in slices of two: [[1; 2]], [[3; 4]], [[5]]. *)
Lemma batches_partition_witness :
  0 < 2 /\
  batches 2 [1; 2; 3; 4; 5] = [[1; 2]; [3; 4]; [5]] /\
  List.concat (batches 2 [1; 2; 3; 4; 5]) = [1; 2; 3; 4; 5] /\
  Forall (fun b => b <> [] /\ List.length b <= 2) (batches 2 [1; 2; 3; 4; 5]) /\
  List.length (batches 2 [1; 2; 3; 4; 5]) = (5 + 2 - 1) / 2.
Proof.
  split; [exact (Nat.lt_0_succ 1)|]. split; [reflexivity|].
  exact (batches_partition nat 2 (Nat.lt_0_succ 1) [1; 2; 3; 4; 5]).
Defined.

(** Two texts, embedded in one call of the example model. *)
Lemma sub_batching_witness :
  embeds_with demo_encode demo_embed /\
  exists w',
    encode_batches demo_encode (batches 64 ["alpha"; "beta"]) fresh_rag
    = (Ok (map demo_embed ["alpha"; "beta"]),
       mk_rag (query_cache fresh_rag) w'
         (calls fresh_rag ++ map EvEncode (batches 64 ["alpha"; "beta"]))) /\
    List.concat (batches 64 ["alpha"; "beta"]) = ["alpha"; "beta"] /\
    Forall (fun b => List.length b <= 64) (batches 64 ["alpha"; "beta"]).
Proof.
  split; [exact demo_encode_embeds|].
  exact (sub_batching_is_transparent unit demo_encode demo_embed
           demo_encode_embeds ["alpha"; "beta"] fresh_rag).
Defined.

(** The three-page PDF, ingested into an empty collection in one batch. *)
Lemma process_pdf_adds_witness :
  empty_count (world fresh_rag) = (Ok 0%Z, tt) /\
  (0 <= 0)%Z /\
  demo_pages tt = (Ok three_pages, tt) /\
  let text := join (nl ^^ nl) (page_texts three_pages) in
  let items := map item_of_chunk (chunk_text one_segment "data/book.pdf" text) in
  exists evs k,
    calls (snd (process_pdf demo_encode empty_count no_add (fun _ => true)
                  demo_pages one_segment "data/book.pdf" fresh_rag))
    = calls fresh_rag ++ [EvCount; EvPathExists; EvPdfRead] ++ evs /\
    added_items evs = firstn k (batches 1000 items) /\
    Forall (fun b => List.length b <= 1000) (added_items evs) /\
    (forall v,
       fst (process_pdf demo_encode empty_count no_add (fun _ => true)
              demo_pages one_segment "data/book.pdf" fresh_rag) = Ok v ->
       v = PyNone /\ List.concat (added_items evs) = items).
Proof.
  split; [reflexivity|]. split; [exact (Z.le_refl 0)|]. split; [reflexivity|].
  exact (process_pdf_adds_in_order unit demo_encode empty_count no_add
           (fun _ => true) demo_pages one_segment "data/book.pdf"
           fresh_rag 0%Z tt tt three_pages
           eq_refl (Z.le_refl 0) eq_refl eq_refl).
Defined.

(** The third page keeps the number 3 though the second has no text. *)
Lemma extracted_text_witness :
  demo_pages (world fresh_rag) = (Ok three_pages, tt) /\
  exists blocks,
    extract_text_from_pdf (fun _ => true) demo_pages fresh_rag
    = (Ok (join (nl ^^ nl) blocks),
       mk_rag (query_cache fresh_rag) tt
         (calls fresh_rag ++ [EvPathExists; EvPdfRead])) /\
    List.length blocks <= List.length three_pages /\
    forall s, In s blocks <->
      exists i t,
        nth_error three_pages i = Some (Some t) /\ t <> EmptyString /\
        s = "--- Page " ^^ str_of_nat (S i) ^^ " ---" ^^ nl ^^ t.
Proof.
  split; [reflexivity|].
  exact (extracted_text_numbers_pages unit (fun _ => true) demo_pages
           fresh_rag three_pages tt eq_refl eq_refl).
Defined.

(** A PDF that is missing, and one that cannot be opened. *)
Lemma process_pdf_failure_witness :
  empty_count (world fresh_rag) = (Ok 0%Z, tt) /\
  (0 <= 0)%Z /\
  process_pdf demo_encode empty_count no_add (fun _ => false) demo_pages
    one_segment "data/book.pdf" fresh_rag
  = (Raise FileNotFoundError,
     mk_rag (query_cache fresh_rag) tt
       (calls fresh_rag ++ [EvCount; EvPathExists])) /\
  process_pdf demo_encode empty_count no_add (fun _ => true) unreadable_pdf
    one_segment "data/book.pdf" fresh_rag
  = (Raise PdfError,
     mk_rag (query_cache fresh_rag) tt
       (calls fresh_rag ++ [EvCount; EvPathExists; EvPdfRead])).
Proof.
  split; [reflexivity|]. split; [exact (Z.le_refl 0)|]. split.
  - exact (proj1 (process_pdf_extraction_failure unit demo_encode empty_count
                    no_add (fun _ => false) demo_pages one_segment
                    "data/book.pdf" fresh_rag 0%Z tt eq_refl (Z.le_refl 0))
             eq_refl).
  - exact (proj2 (process_pdf_extraction_failure unit demo_encode empty_count
                    no_add (fun _ => true) unreadable_pdf one_segment
                    "data/book.pdf" fresh_rag 0%Z tt eq_refl (Z.le_refl 0))
             PdfError tt eq_refl eq_refl).
Defined.

(** The answer of an empty collection. *)
Lemma empty_answer_witness :
  demo_encode ["q"] (world fresh_rag) = (Ok [demo_embed "q"], tt) /\
  empty_query (demo_embed "q") 5 tt = (Ok empty_result, tt) /\
  no_documents empty_result = true /\
  retrieve_relevant_chunks demo_encode empty_query "q" 5 fresh_rag
  = (Ok [], mk_rag (query_cache fresh_rag) tt
              (calls fresh_rag ++ [EvEncode ["q"]; EvQuery (demo_embed "q") 5])) /\
  fst (get_relevant_context demo_encode empty_query "q" 5 fresh_rag)
  = Ok no_context.
Proof.
  split; [reflexivity|]. split; [reflexivity|]. split; [reflexivity|].
  split.
  - exact (proj1 (empty_answer_gives_no_context unit demo_encode empty_query
                    "q" 5 fresh_rag (demo_embed "q") [] tt tt empty_result
                    eq_refl eq_refl eq_refl)).
  - exact (proj1 (proj2 (empty_answer_gives_no_context unit demo_encode
                           empty_query "q" 5 fresh_rag (demo_embed "q") [] tt tt
                           empty_result eq_refl eq_refl eq_refl) eq_refl)).
Defined.

(** Two candidates and one vector: nothing comes back. *)
Lemma short_embeddings_witness :
  let built :=
    [mk_chunk "beta" (Some "Unknown") (Some "4") None None;
     mk_chunk "alpha" (Some "doc.pdf") (Some "Unknown") None None] in
  let st3 := mk_rag [] tt [EvEncode ["q"]; EvQuery (demo_embed "q") 5;
                           EvEncode ["beta"; "alpha"]] in
  build_chunks demo_result = Ok built /\
  encode_batches short_encode (batches 64 (map c_text built))
    (mk_rag [] tt [EvEncode ["q"]; EvQuery (demo_embed "q") 5])
  = (Ok [demo_embed "beta"], st3) /\
  retrieve_relevant_chunks short_encode demo_query "q" 5 fresh_rag
  = (Ok [], st3).
Proof.
  split; [reflexivity|]. split; [reflexivity|].
  exact (short_embeddings_give_nothing unit short_encode demo_query "q" 5
           fresh_rag (demo_embed "q") [] tt tt demo_result
           [mk_chunk "beta" (Some "Unknown") (Some "4") None None;
            mk_chunk "alpha" (Some "doc.pdf") (Some "Unknown") None None]
           [demo_embed "beta"]
           (mk_rag [] tt [EvEncode ["q"]; EvQuery (demo_embed "q") 5;
                          EvEncode ["beta"; "alpha"]])
           eq_refl eq_refl eq_refl eq_refl (Nat.lt_succ_diag_r 1)).
Defined.

(** The example index with the example model: both candidates come back,
    [alpha] first. *)
Lemma healthy_retrieval_witness :
  let built :=
    [mk_chunk "beta" (Some "Unknown") (Some "4") None None;
     mk_chunk "alpha" (Some "doc.pdf") (Some "Unknown") None None] in
  embeds_with demo_encode demo_embed /\
  build_chunks demo_result = Ok built /\
  Forall (fun c =>
            is_nan (cosine_float (demo_embed (c_text c)) (demo_embed "q"))
            = false) built /\
  sort_desc sort_key (map (scored demo_embed "q") built)
  = [mk_chunk "alpha" (Some "doc.pdf") (Some "Unknown") None (Some 1%float);
     mk_chunk "beta" (Some "Unknown") (Some "4") None (Some 0%float)] /\
  exists w3,
    retrieve_relevant_chunks demo_encode demo_query "q" 5 fresh_rag
    = (Ok (sort_desc sort_key (map (scored demo_embed "q") built)),
       mk_rag (query_cache fresh_rag) w3
         (calls fresh_rag ++ [EvEncode ["q"]; EvQuery (demo_embed "q") 5]
            ++ map EvEncode (batches 64 (map c_text built)))) /\
    Permutation
      (map c_text (sort_desc sort_key (map (scored demo_embed "q") built)))
      (map c_text built) /\
    descending
      (map sort_key (sort_desc sort_key (map (scored demo_embed "q") built))).
Proof.
  split; [exact demo_encode_embeds|]. split; [reflexivity|].
  split; [repeat constructor|]. split; [reflexivity|].
  refine (healthy_retrieval_scores_every_candidate unit demo_encode demo_query
            demo_embed demo_encode_embeds "q" 5 fresh_rag tt tt demo_result
            [mk_chunk "beta" (Some "Unknown") (Some "4") None None;
             mk_chunk "alpha" (Some "doc.pdf") (Some "Unknown") None None]
            eq_refl eq_refl eq_refl _).
  repeat constructor.
Defined.


(** Over an existing collection of three items the constructor only asks
    for the count.  Over an existing empty one it swallows the failure of
    the PDF reader when that is an [Exception]; when it is not, the bare
    [except] creates the collection and ingests again, and the second
    failure ends the constructor. *)
Lemma existing_collection_witness :
  let every := fun _ : exn => true in
  let but_pdf := fun e : exn =>
                   match e with PdfError => false | _ => true end in
  present_collection tt = (Ok tt, tt) /\
  __init__ demo_encode populated_count no_add (fun _ => true) unreadable_pdf
    one_segment "data/book.pdf" present_collection present_collection every tt
  = (Ok tt, mk_rag [] tt [EvCount]) /\
  __init__ demo_encode empty_count no_add (fun _ => true) unreadable_pdf
    one_segment "data/book.pdf" present_collection present_collection every tt
  = (Ok tt,
     mk_rag [] tt [EvCount; EvPathExists; EvCount; EvPathExists; EvPdfRead]) /\
  __init__ demo_encode empty_count no_add (fun _ => true) unreadable_pdf
    one_segment "data/book.pdf" present_collection present_collection but_pdf tt
  = (Raise PdfError,
     mk_rag [] tt [EvCount; EvPathExists; EvCount; EvPathExists; EvPdfRead;
                   EvPathExists; EvCount; EvPathExists; EvPdfRead]).
Proof.
  split; [reflexivity|]. split; [|split].
  - exact (proj2 (proj2 (proj2
             (existing_collection_swallows_exceptions unit demo_encode
                populated_count no_add (fun _ => true) unreadable_pdf
                one_segment "data/book.pdf" present_collection
                present_collection (fun _ => true) tt tt eq_refl)))
             3%Z tt eq_refl (Z.neq_sym _ _ (Z.lt_neq 0 3 eq_refl))).
  - exact (proj1 (proj2
             (existing_collection_swallows_exceptions unit demo_encode
                empty_count no_add (fun _ => true) unreadable_pdf
                one_segment "data/book.pdf" present_collection
                present_collection (fun _ => true) tt tt eq_refl))
             (fun e _ => eq_refl)).
  - exact (proj1 (proj2 (proj2
             (existing_collection_swallows_exceptions unit demo_encode
                empty_count no_add (fun _ => true) unreadable_pdf
                one_segment "data/book.pdf" present_collection
                present_collection
                (fun e => match e with PdfError => false | _ => true end)
                tt tt eq_refl)))
             PdfError eq_refl eq_refl).
Defined.

(** Over a collection that had to be created, the failure of the PDF reader
    ends the constructor. *)
Lemma new_collection_witness :
  absent_collection tt = (Raise ValueError, tt) /\
  present_collection tt = (Ok tt, tt) /\
  __init__ demo_encode empty_count no_add (fun _ => true) unreadable_pdf
    one_segment "data/book.pdf" absent_collection present_collection
    (fun _ => true) tt
  = (Raise PdfError,
     mk_rag [] tt [EvPathExists; EvCount; EvPathExists; EvPdfRead]) /\
  __init__ demo_encode empty_count no_add (fun _ => false) unreadable_pdf
    one_segment "data/book.pdf" absent_collection present_collection
    (fun _ => true) tt
  = (Ok tt, mk_rag [] tt [EvPathExists]).
Proof.
  split; [reflexivity|]. split; [reflexivity|]. split.
  - exact (proj1 (proj2
             (new_collection_ingestion_is_unguarded unit demo_encode
                empty_count no_add (fun _ => true) unreadable_pdf one_segment
                "data/book.pdf" absent_collection present_collection
                (fun _ => true) tt tt tt ValueError eq_refl eq_refl))
             eq_refl PdfError
             (mk_rag [] tt [EvPathExists; EvCount; EvPathExists; EvPdfRead])
             eq_refl).
  - exact (proj1
             (new_collection_ingestion_is_unguarded unit demo_encode
                empty_count no_add (fun _ => false) unreadable_pdf one_segment
                "data/book.pdf" absent_collection present_collection
                (fun _ => true) tt tt tt ValueError eq_refl eq_refl)
             eq_refl).
Defined.

(** Both chunks of the example retrieval have a source, an identifier and a
    score, the missing ones filled with ['Unknown']. *)
Lemma retrieved_fields_witness :
  let cs :=
    [mk_chunk "alpha" (Some "doc.pdf") (Some "Unknown") None (Some 1%float);
     mk_chunk "beta" (Some "Unknown") (Some "4") None (Some 0%float)] in
  let st' := mk_rag [] tt [EvEncode ["q"]; EvQuery [1; 0]%float 5;
                           EvEncode ["beta"; "alpha"]] in
  retrieve_relevant_chunks demo_encode demo_query "q" 5 fresh_rag = (Ok cs, st') /\
  Forall (fun c =>
    exists src cid sc,
      c_source c = Some src /\ c_chunk_id c = Some cid /\
      c_score c = Some sc /\ sort_key c = sc /\
      forall k, format_entry (k, c)
                = "[Source " ^^ str_of_nat k ^^ ": " ^^ src ^^ "]" ^^ nl
                    ^^ c_text c ^^ nl ^^ nl) cs.
Proof.
  split; [reflexivity|].
  exact (retrieved_chunks_have_every_field unit demo_encode demo_query "q" 5
           fresh_rag _ _ eq_refl).
Defined.

(** The one item of a three-letter text, stored and found again. *)
Lemma metadata_round_trip_witness :
  let it := mk_item "chunk_0" "abc"
              (mk_metadata (Some "book.pdf") (Some "0")) in
  let r := mk_query_result (Some [["abc"]]) (Some [[Some (it_meta it)]]) None in
  let c := mk_chunk "abc" (Some "book.pdf") (Some "0") None None in
  nth_error (map item_of_chunk (chunk_text one_segment "data/book.pdf" "abc")) 0
  = Some it /\
  build_chunk r (0, "abc") = Ok c /\
  c_text c = "abc" /\
  c_source c = Some (basename "data/book.pdf") /\
  c_chunk_id c = Some (str_of_nat 0) /\
  it_id it = "chunk_" ^^ str_of_nat 0.
Proof.
  split; [reflexivity|]. split; [reflexivity|].
  exact (ingested_metadata_is_read_back one_segment "data/book.pdf" "abc" 0
           (mk_item "chunk_0" "abc" (mk_metadata (Some "book.pdf") (Some "0")))
           (mk_query_result (Some [["abc"]])
              (Some [[Some (mk_metadata (Some "book.pdf") (Some "0"))]]) None)
           0 "abc" [Some (mk_metadata (Some "book.pdf") (Some "0"))] []
           (mk_chunk "abc" (Some "book.pdf") (Some "0") None None)
           eq_refl eq_refl eq_refl eq_refl).
Defined.

(** One document without metadata, and the other is lost as well. *)
Lemma incomplete_answer_witness :
  demo_encode ["q"] (world fresh_rag) = (Ok [demo_embed "q"], tt) /\
  incomplete_query (demo_embed "q") 5 tt = (Ok incomplete_result, tt) /\
  complete_answer incomplete_result = false /\
  complete_answer demo_result = true /\
  retrieve_relevant_chunks demo_encode incomplete_query "q" 5 fresh_rag
  = (Ok [], mk_rag (query_cache fresh_rag) tt
              (calls fresh_rag ++ [EvEncode ["q"]; EvQuery (demo_embed "q") 5])).
Proof.
  split; [reflexivity|]. split; [reflexivity|]. split; [reflexivity|].
  split; [reflexivity|].
  exact (proj2 (incomplete_answer_gives_nothing unit demo_encode
                  incomplete_query "q" 5 fresh_rag (demo_embed "q") [] tt tt
                  incomplete_result eq_refl eq_refl) eq_refl).
Defined.

(** The three-page PDF, ingested with every service up: one embedding call
    and one add. *)
Lemma healthy_ingestion_witness :
  embeds_with demo_encode demo_embed /\
  accepts_all no_add /\
  empty_count (world fresh_rag) = (Ok 0%Z, tt) /\
  (0 <= 0)%Z /\
  demo_pages tt = (Ok three_pages, tt) /\
  let text := join (nl ^^ nl) (page_texts three_pages) in
  let items := map item_of_chunk (chunk_text one_segment "data/book.pdf" text) in
  exists w3,
    process_pdf demo_encode empty_count no_add (fun _ => true) demo_pages
      one_segment "data/book.pdf" fresh_rag
    = (Ok PyNone,
       mk_rag (query_cache fresh_rag) w3
         (calls fresh_rag ++ [EvCount; EvPathExists; EvPdfRead]
            ++ flat_map (batch_events demo_embed) (batches 1000 items))).
Proof.
  split; [exact demo_encode_embeds|]. split; [exact no_add_accepts_all|].
  split; [reflexivity|]. split; [exact (Z.le_refl 0)|].
  split; [reflexivity|].
  exact (healthy_ingestion_stores_aligned_embeddings unit demo_encode
           empty_count no_add (fun _ => true) demo_pages one_segment
           "data/book.pdf" demo_embed demo_encode_embeds no_add_accepts_all
           fresh_rag 0%Z tt tt three_pages
           eq_refl (Z.le_refl 0) eq_refl eq_refl).
Defined.

(** Both candidates of the example index lack a metadata field, and both
    come back: [alpha] without a [chunk_id], [beta] without a [source]. *)
Lemma missing_metadata_witness :
  let st2 := mk_rag [] tt [EvEncode ["q"]; EvQuery (demo_embed "q") 5] in
  let st3 := mk_rag [] tt [EvEncode ["q"]; EvQuery (demo_embed "q") 5;
                           EvEncode ["beta"; "alpha"]] in
  let m0 := [Some (mk_metadata None (Some "4"));
             Some (mk_metadata (Some "doc.pdf") None)] in
  complete_answer demo_result = true /\
  encode_batches demo_encode (batches 64 ["beta"; "alpha"]) st2
  = (Ok [demo_embed "beta"; demo_embed "alpha"], st3) /\
  retrieve_relevant_chunks demo_encode demo_query "q" 5 fresh_rag
  = (Ok [mk_chunk "alpha" (Some "doc.pdf") (Some "Unknown") None (Some 1%float);
         mk_chunk "beta" (Some "Unknown") (Some "4") None (Some 0%float)],
     st3) /\
  exists cs,
    retrieve_relevant_chunks demo_encode demo_query "q" 5 fresh_rag
    = (Ok cs, st3) /\
    Permutation (map c_text cs) ["beta"; "alpha"] /\
    forall i doc md,
      nth_error ["beta"; "alpha"] i = Some doc ->
      nth_error m0 i = Some (Some md) ->
      exists c e,
        In c cs /\
        c_text c = doc /\
        c_source c = Some (get_default (md_source md) "Unknown") /\
        c_chunk_id c = Some (get_default (md_chunk_id md) "Unknown") /\
        (md_source md = None -> c_source c = Some "Unknown") /\
        (md_chunk_id md = None -> c_chunk_id c = Some "Unknown") /\
        c_distance c = dist_at demo_result i /\
        (truthy (distances demo_result) = false -> c_distance c = None) /\
        nth_error [demo_embed "beta"; demo_embed "alpha"] i = Some e /\
        c_score c = Some (cosine_float e (demo_embed "q")).
Proof.
  split; [reflexivity|]. split; [reflexivity|]. split; [reflexivity|].
  exact (missing_metadata_defaults unit demo_encode demo_query "q" 5 fresh_rag
           (demo_embed "q") [] tt tt demo_result ["beta"; "alpha"] []
           [Some (mk_metadata None (Some "4"));
            Some (mk_metadata (Some "doc.pdf") None)] []
           [demo_embed "beta"; demo_embed "alpha"]
           (mk_rag [] tt [EvEncode ["q"]; EvQuery (demo_embed "q") 5;
                          EvEncode ["beta"; "alpha"]])
           eq_refl eq_refl eq_refl eq_refl eq_refl eq_refl (le_n 2)).
Defined.

(** C10 as stated fails: a candidate without a [source] is dropped when
    something else goes wrong with the answer.  In the first answer the
    candidate [beta] lacks its [source] and [alpha] has no metadata at all;
    in the second the metadata are as in the example index and the model
    hands back one vector for the two texts.  Either way the retrieval
    returns the empty list, and [beta] with it. *)
Lemma missing_metadata_dropped_counterexample :
  documents incomplete_result = Some [["beta"; "alpha"]] /\
  metadatas incomplete_result
  = Some [[Some (mk_metadata None (Some "4")); None]] /\
  retrieve_relevant_chunks demo_encode incomplete_query "q" 5 fresh_rag
  = (Ok [], mk_rag [] tt [EvEncode ["q"]; EvQuery (demo_embed "q") 5]) /\
  metadatas demo_result
  = Some [[Some (mk_metadata None (Some "4"));
           Some (mk_metadata (Some "doc.pdf") None)]] /\
  retrieve_relevant_chunks short_encode demo_query "q" 5 fresh_rag
  = (Ok [], mk_rag [] tt [EvEncode ["q"]; EvQuery (demo_embed "q") 5;
                          EvEncode ["beta"; "alpha"]]).
Proof. repeat split. Qed.
